(** * The browser daemon: command relay between socket clients and a polling extension

    A shallow embedding of the daemon (the file with [startHttpServer] and
    [startSocketServer]): the two process-wide tables [pendingRequests] and
    [commandQueue], the socket ['data'] handler, the HTTP request handler and
    the callback armed by [setTimeout], each as a function on an explicit
    state.  Node runs every handler to completion on one thread, so a run of
    the daemon is a sequence of events, one handler call each. *)

From Stdlib Require Import Ascii String.
From stdpp Require Import gmap strings list fin_maps.

Local Open Scope string_scope.
Set Warnings "-register-all".

(** ** JSON values and the host engine *)

(** What [JSON.parse] returns and [JSON.stringify] prints.  An object is its
    list of own properties.  [num] is the engine's number type. *)
Inductive json (num : Type) : Type :=
  | JNull
  | JBool (b : bool)
  | JNum (n : num)
  | JStr (s : string)
  | JArr (items : list (json num))
  | JObj (fields : list (string * json num)).

Arguments JNull {num}.
Arguments JBool {num} b.
Arguments JNum {num} n.
Arguments JStr {num} s.
Arguments JArr {num} items.
Arguments JObj {num} fields.

(** A JavaScript evaluation either completes with a value or throws an error
    whose [message] is kept. *)
Inductive completion (A : Type) : Type :=
  | Normal (a : A)
  | Throw (message : string).

Arguments Normal {A} a.
Arguments Throw {A} message.

(** The parts of the JavaScript engine the daemon calls and does not define:
    numbers (compared as a [Map] compares keys), [JSON.parse] with the message
    of the [SyntaxError] it throws, and the messages of the two [TypeError]s
    raised by reading [requestId] off [null]; [data.toString()], which turns
    the bytes of one [Buffer] into text; and the conversion of a value to a
    string that a template literal makes, of which the daemon sees whether it
    throws and with what message.  That conversion calls into the value only
    when it is an object or an array. *)
Class Engine := {
  number : Type;
  number_eq_dec :: EqDecision number;
  number_countable :: Countable number;
  number_of_nat : nat → number;
  JSON_parse : string → completion (json number);
  null_property_message : string;
  null_destructure_message : string;
  Buffer_toString : string → string;
  ToString_error : json number → option string;
  ToString_primitive :
    ∀ v, match v with
         | JArr _ | JObj _ => True
         | _ => ToString_error v = None
         end;
}.

(** ** A reference engine

    An [Engine] to run the daemon on written-out inputs: a recursive-descent
    reader of the JSON grammar.  A number is the decimal it is written as,
    [m * 10^e] with [m] free of trailing zeros, so the rounding to a double
    is left out; an object keeps its members in the order written, a later
    duplicate replacing the value of the earlier; a [\u] escape above 00FF
    is refused.  Bytes are read as UTF-8, and what they give outside U+0000
    to U+00FF, the replacement character U+FFFD of a broken sequence
    included, is written [?].  The properties below hold for every engine
    and do not look inside this one. *)
Module Reference.

Definition decimal : Type := Z * Z.

Fixpoint strip_zeros (fuel : nat) (m e : Z) : decimal :=
  match fuel with
  | O => (m, e)
  | S fuel =>
      if (m =? 0)%Z then (0, 0)%Z
      else if (m mod 10 =? 0)%Z then strip_zeros fuel (m / 10)%Z (e + 1)%Z
      else (m, e)
  end.

Definition make_decimal (m e : Z) : decimal :=
  strip_zeros (S (Z.to_nat (Z.log2 (Z.abs m)))) m e.

Definition quote : ascii := ascii_of_nat 34.
Definition backslash : ascii := ascii_of_nat 92.

Definition is_space (c : ascii) : bool :=
  let n := nat_of_ascii c in ((n =? 32) || (n =? 9) || (n =? 10) || (n =? 13))%nat.

Fixpoint skip_spaces (s : string) : string :=
  match s with
  | String c rest => if is_space c then skip_spaces rest else s
  | EmptyString => s
  end.

Definition digit_of (c : ascii) : option Z :=
  let n := nat_of_ascii c in
  if ((48 <=? n) && (n <=? 57))%nat then Some (Z.of_nat (n - 48)) else None.

Definition hex_of (c : ascii) : option nat :=
  let n := nat_of_ascii c in
  if ((48 <=? n) && (n <=? 57))%nat then Some (n - 48)%nat
  else if ((65 <=? n) && (n <=? 70))%nat then Some (n - 55)%nat
  else if ((97 <=? n) && (n <=? 102))%nat then Some (n - 87)%nat
  else None.

(** The digits at the head of [s]: their value on top of [acc], how many
    they are, and what follows. *)
Fixpoint read_digits (s : string) (acc : Z) (count : nat) : Z * nat * string :=
  match s with
  | String c rest =>
      match digit_of c with
      | Some d => read_digits rest (10 * acc + d)%Z (S count)
      | None => (acc, count, s)
      end
  | EmptyString => (acc, count, s)
  end.

Definition read_fraction (s : string) (int : Z) : option (Z * nat * string) :=
  match s with
  | String "." rest =>
      match read_digits rest int 0 with
      | (_, O, _) => None
      | r => Some r
      end
  | _ => Some (int, 0%nat, s)
  end.

Definition read_exponent (s : string) : option (Z * string) :=
  match s with
  | String c rest =>
      if decide (c = "e"%char ∨ c = "E"%char) then
        let '(negative, rest) :=
          match rest with
          | String "-" r => (true, r)
          | String "+" r => (false, r)
          | _ => (false, rest)
          end in
        match read_digits rest 0 0 with
        | (_, O, _) => None
        | (x, _, rest) => Some (if negative then (- x)%Z else x, rest)
        end
      else Some (0%Z, s)
  | EmptyString => Some (0%Z, s)
  end.

Definition read_number (s : string) : option (decimal * string) :=
  let '(negative, s) :=
    match s with
    | String "-" r => (true, r)
    | _ => (false, s)
    end in
  match s with
  | String c after_first =>
      match digit_of c with
      | None => None
      | Some d =>
          let '(int, _, rest) :=
            if (d =? 0)%Z then (0%Z, 1%nat, after_first) else read_digits s 0 0 in
          match read_fraction rest int with
          | None => None
          | Some (m, places, rest) =>
              match read_exponent rest with
              | None => None
              | Some (x, rest) =>
                  Some (make_decimal (if negative then (- m)%Z else m)
                          (x - Z.of_nat places)%Z, rest)
              end
          end
      end
  | EmptyString => None
  end.

Definition escape_of (c : ascii) : option ascii :=
  if decide (c = quote) then Some quote
  else if decide (c = backslash) then Some backslash
  else if decide (c = "/"%char) then Some "/"%char
  else if decide (c = "b"%char) then Some (ascii_of_nat 8)
  else if decide (c = "f"%char) then Some (ascii_of_nat 12)
  else if decide (c = "n"%char) then Some (ascii_of_nat 10)
  else if decide (c = "r"%char) then Some (ascii_of_nat 13)
  else if decide (c = "t"%char) then Some (ascii_of_nat 9)
  else None.

Definition unit_of_hex (a b c d : ascii) : option ascii :=
  match hex_of a, hex_of b, hex_of c, hex_of d with
  | Some 0%nat, Some 0%nat, Some h, Some l => Some (ascii_of_nat (16 * h + l))
  | _, _, _, _ => None
  end.

(** The characters of a string after its opening quote, and what follows
    the closing one. *)
Fixpoint read_chars (s : string) : option (string * string) :=
  match s with
  | EmptyString => None
  | String c rest =>
      if decide (c = quote) then Some (EmptyString, rest)
      else if decide (c = backslash) then
        match rest with
        | String "u" (String h1 (String h2 (String h3 (String h4 rest')))) =>
            match unit_of_hex h1 h2 h3 h4, read_chars rest' with
            | Some u, Some (text, after) => Some (String u text, after)
            | _, _ => None
            end
        | String e rest' =>
            match escape_of e, read_chars rest' with
            | Some u, Some (text, after) => Some (String u text, after)
            | _, _ => None
            end
        | EmptyString => None
        end
      else if (nat_of_ascii c <? 32)%nat then None
      else match read_chars rest with
           | Some (text, after) => Some (String c text, after)
           | None => None
           end
  end.

Definition strip_prefix (p s : string) : option string :=
  if String.prefix p s then Some (String.substring (String.length p)
                                    (String.length s - String.length p) s)
  else None.

Fixpoint set_field {A} (name : string) (v : A) (fields : list (string * A))
  : list (string * A) :=
  match fields with
  | [] => [(name, v)]
  | (n, w) :: rest =>
      if decide (n = name) then (n, v) :: rest else (n, w) :: set_field name v rest
  end.

Fixpoint read_value (fuel : nat) (s : string) : option (json decimal * string) :=
  match fuel with
  | O => None
  | S fuel =>
      match skip_spaces s with
      | String "{" rest =>
          match skip_spaces rest with
          | String "}" after => Some (JObj [], after)
          | members =>
              match read_members fuel members [] with
              | Some (fields, after) => Some (JObj fields, after)
              | None => None
              end
          end
      | String "[" rest =>
          match skip_spaces rest with
          | String "]" after => Some (JArr [], after)
          | items =>
              match read_items fuel items with
              | Some (vs, after) => Some (JArr vs, after)
              | None => None
              end
          end
      | String c rest as text =>
          if decide (c = quote) then
            match read_chars rest with
            | Some (t, after) => Some (JStr t, after)
            | None => None
            end
          else
            match strip_prefix "null" text, strip_prefix "true" text,
                  strip_prefix "false" text with
            | Some after, _, _ => Some (JNull, after)
            | _, Some after, _ => Some (JBool true, after)
            | _, _, Some after => Some (JBool false, after)
            | None, None, None =>
                match read_number text with
                | Some (n, after) => Some (JNum n, after)
                | None => None
                end
            end
      | EmptyString => None
      end
  end
with read_items (fuel : nat) (s : string) : option (list (json decimal) * string) :=
  match fuel with
  | O => None
  | S fuel =>
      match read_value fuel s with
      | Some (v, after) =>
          match skip_spaces after with
          | String "]" rest => Some ([v], rest)
          | String "," rest =>
              match read_items fuel rest with
              | Some (vs, rest) => Some (v :: vs, rest)
              | None => None
              end
          | _ => None
          end
      | None => None
      end
  end
with read_members (fuel : nat) (s : string) (seen : list (string * json decimal))
  : option (list (string * json decimal) * string) :=
  match fuel with
  | O => None
  | S fuel =>
      match skip_spaces s with
      | String c rest =>
          if decide (c = quote) then
            match read_chars rest with
            | Some (name, after) =>
                match skip_spaces after with
                | String ":" after =>
                    match read_value fuel after with
                    | Some (v, after) =>
                        let seen := set_field name v seen in
                        match skip_spaces after with
                        | String "}" rest => Some (seen, rest)
                        | String "," rest => read_members fuel rest seen
                        | _ => None
                        end
                    | None => None
                    end
                | _ => None
                end
            | None => None
            end
          else None
      | EmptyString => None
      end
  end.

Definition parse (text : string) : completion (json decimal) :=
  match read_value (2 * String.length text + 2) text with
  | Some (v, rest) =>
      match skip_spaces rest with
      | EmptyString => Normal v
      | _ => Throw "Unexpected non-whitespace character after JSON"
      end
  | None => Throw "Unexpected token in JSON"
  end.

(** [data.toString()]: the UTF-8 decoder of the Encoding Standard.  A
    sequence that breaks off gives one replacement character and the byte
    it broke off at is read again as a first byte. *)
Record partial : Type := {
  (** continuation bytes still to come *)
  needed : nat;
  (** the range the next byte has to be in *)
  lower : nat;
  upper : nat;
  (** the code point as far as it is read *)
  point : nat;
}.

Definition stand_in : string := "?".

(** A code point as code units: itself up to U+00FF, one stand-in up to
    U+FFFF, two for a surrogate pair. *)
Definition code_units (point : nat) : string :=
  if (point <? 256)%nat then String (ascii_of_nat point) EmptyString
  else if (point <? 256 * 256)%nat then stand_in
  else stand_in ++ stand_in.

(** A byte read between two characters: what it gives at once, and the
    sequence it opens. *)
Definition first_byte (n : nat) : string * option partial :=
  if (n <? 128)%nat then (String (ascii_of_nat n) EmptyString, None)
  else if ((194 <=? n) && (n <=? 223))%nat then
    (EmptyString,
     Some {| needed := 1; lower := 128; upper := 191; point := n - 192 |})
  else if ((224 <=? n) && (n <=? 239))%nat then
    (EmptyString,
     Some {| needed := 2;
             lower := if (n =? 224)%nat then 160 else 128;
             upper := if (n =? 237)%nat then 159 else 191;
             point := n - 224 |})
  else if ((240 <=? n) && (n <=? 244))%nat then
    (EmptyString,
     Some {| needed := 3;
             lower := if (n =? 240)%nat then 144 else 128;
             upper := if (n =? 244)%nat then 143 else 191;
             point := n - 240 |})
  else (stand_in, None).

Fixpoint decode_utf8 (open : option partial) (bytes : string) : string :=
  match bytes with
  | EmptyString => match open with
                   | Some _ => stand_in
                   | None => EmptyString
                   end
  | String b rest =>
      let n := nat_of_ascii b in
      match open with
      | Some p =>
          if ((lower p <=? n) && (n <=? upper p))%nat then
            let point' := (64 * point p + (n - 128))%nat in
            match needed p with
            | S (S k) =>
                decode_utf8 (Some {| needed := S k; lower := 128; upper := 191;
                                     point := point' |}) rest
            | _ => code_units point' ++ decode_utf8 None rest
            end
          else
            let '(out, open') := first_byte n in
            stand_in ++ out ++ decode_utf8 open' rest
      | None =>
          let '(out, open') := first_byte n in
          out ++ decode_utf8 open' rest
      end
  end.

Definition toString (bytes : string) : string := decode_utf8 None bytes.

(** The conversion of a template literal throws for an object that has a
    member of its own named [toString], which is no function, and for an
    array that holds such an object, however deep. *)
Fixpoint has_member {A} (name : string) (fields : list (string * A)) : bool :=
  match fields with
  | [] => false
  | (n, _) :: rest => if decide (n = name) then true else has_member name rest
  end.

Fixpoint conversion_error (v : json decimal) : option string :=
  match v with
  | JObj fields =>
      if has_member "toString" fields
      then Some "Cannot convert object to primitive value" else None
  | JArr items =>
      (fix first (l : list (json decimal)) : option string :=
         match l with
         | [] => None
         | item :: rest => match conversion_error item with
                           | Some message => Some message
                           | None => first rest
                           end
         end) items
  | _ => None
  end.

#[export] Instance engine : Engine := {|
  number := decimal;
  number_of_nat n := make_decimal (Z.of_nat n) 0;
  JSON_parse := parse;
  null_property_message := "Cannot read properties of null (reading 'requestId')";
  null_destructure_message :=
    "Cannot destructure property 'requestId' of 'response' as it is null.";
  Buffer_toString := toString;
  ToString_error := conversion_error;
  ToString_primitive v :=
    match v as v
          return match v with
                 | JArr _ | JObj _ => True
                 | _ => conversion_error v = None
                 end
    with
    | JArr _ | JObj _ => I
    | _ => eq_refl
    end;
|}.

End Reference.

(** ** Identifiers *)

(** A connection accepted by [net.createServer]; the [socket] of its closure. *)
Abbreviation sock := nat (only parsing).
(** The object returned by [setTimeout]. *)
Abbreviation handle := nat (only parsing).

Section Daemon.
Context `{Engine}.

Abbreviation value := (json number).

(** ** Property access *)

Fixpoint get_field (name : string) (fields : list (string * value)) : option value :=
  match fields with
  | [] => None
  | (n, v) :: rest => if decide (n = name) then Some v else get_field name rest
  end.

(** [v.requestId]: [None] is [undefined].  Only [null] throws; a number, a
    string, a boolean or an array has no such property. *)
Definition requestId_of (null_message : string) (v : value) : completion (option value) :=
  match v with
  | JNull => Throw null_message
  | JObj fields => Normal (get_field "requestId" fields)
  | _ => Normal None
  end.

(** [command.requestId] (lines 125 to 137). *)
Definition command_requestId : value → completion (option value) :=
  requestId_of null_property_message.

(** [const { requestId } = response] (line 57). *)
Definition destructure_requestId : value → completion (option value) :=
  requestId_of null_destructure_message.

(** ** Keys of the [pendingRequests] Map

    A [Map] compares keys by SameValueZero: primitives by value, objects and
    arrays by identity.  An object met as a key is named by the allocation
    that made it. *)
Inductive key : Type :=
  | KUndefined
  | KNull
  | KBool (b : bool)
  | KNum (n : number)
  | KStr (s : string)
  | KRef (allocation : nat).

#[export] Instance key_eq_dec : EqDecision key.
Proof. solve_decision. Defined.

Definition key_encode (k : key) : unit + unit + bool + number + string + nat :=
  match k with
  | KUndefined => inl (inl (inl (inl (inl ()))))
  | KNull => inl (inl (inl (inl (inr ()))))
  | KBool b => inl (inl (inl (inr b)))
  | KNum n => inl (inl (inr n))
  | KStr s => inl (inr s)
  | KRef a => inr a
  end.

Definition key_decode (x : unit + unit + bool + number + string + nat) : key :=
  match x with
  | inl (inl (inl (inl (inl ())))) => KUndefined
  | inl (inl (inl (inl (inr ())))) => KNull
  | inl (inl (inl (inr b))) => KBool b
  | inl (inl (inr n)) => KNum n
  | inl (inr s) => KStr s
  | inr a => KRef a
  end.

#[export] Instance key_countable : Countable key.
Proof.
  refine (inj_countable' key_encode key_decode _).
  intros []; reflexivity.
Defined.

(** The key a command is filed under.  The command object is created by the
    [JSON.parse] of its line, once per timer [t], so an object-valued
    [requestId] is named by [t]. *)
Definition key_of (t : handle) (requestId : option value) : key :=
  match requestId with
  | None => KUndefined
  | Some JNull => KNull
  | Some (JBool b) => KBool b
  | Some (JNum n) => KNum n
  | Some (JStr s) => KStr s
  | Some (JArr _) | Some (JObj _) => KRef t
  end.

(** The key a response asks for.  Its [requestId] comes out of the
    [JSON.parse] of the request body: an object or array there is a new
    object, identical to no key of the Map ([None]). *)
Definition response_key (requestId : option value) : option key :=
  match requestId with
  | None => Some KUndefined
  | Some JNull => Some KNull
  | Some (JBool b) => Some (KBool b)
  | Some (JNum n) => Some (KNum n)
  | Some (JStr s) => Some (KStr s)
  | Some (JArr _) | Some (JObj _) => None
  end.

(** ** What the daemon tells the outside *)

(** The statement that called [socket.write], with the timer handle in scope
    there: [timeout] taken from the entry at line 59, the timer whose
    callback is running at line 127, none in the [catch] at line 140.  The
    origin is not data on the wire. *)
Inductive origin : Type :=
  | ByResponse (timeout : handle)
  | ByTimer (timeout : handle)
  | ByCatch.

(** One call [socket.write(JSON.stringify(payload) + '\n')] on connection
    [to]. *)
Record write : Type := {
  to : sock;
  payload : value;
  issued : origin;
}.

(** What [res.end] is given: nothing, a text, or [JSON.stringify] of a value. *)
Inductive body : Type :=
  | NoBody
  | Text (s : string)
  | Json (v : value).

(** One HTTP reply: [res.writeHead(status, headers)] then [res.end(content)]. *)
Record reply : Type := {
  status : nat;
  content_type : option string;
  content : body;
}.

(** The calls of [log], one constructor for each, with the values put into
    its template. *)
Inductive log_entry : Type :=
  | SendingCommand (command : value)
  | ReceivedResponse (response : value)
  | SentResponse (requestId : option value)
  | HttpError (message : string)
  | ClientConnected
  | ReceivedCommand (command : value)
  | QueuedCommand (requestId : option value)
  | ErrorProcessing (message : string)
  | ClientDisconnected
  | SocketError (message : string).

(** ** State *)

(** A value of [pendingRequests]: [{ socket, timeout }]. *)
Record pending : Type := {
  socket : sock;
  timeout : handle;
}.

(** An armed timer: the closure given to [setTimeout] at line 124, which
    holds [socket] and [command], and its delay in milliseconds. *)
Record timer : Type := {
  timer_socket : sock;
  timer_command : value;
  delay : N;
}.

Record state : Type := {
  pendingRequests : gmap key pending;
  commandQueue : list value;
  (** timers set and neither cleared nor run yet *)
  timers : gmap handle timer;
  (** the handle the next [setTimeout] returns *)
  nextTimer : handle;
  (** the [buffer] variable of each connection *)
  buffers : gmap sock string;
  (** every [socket.write] so far, oldest first *)
  sent : list write;
  (** every HTTP reply so far, oldest first *)
  replies : list reply;
  (** every [log] so far, oldest first *)
  logged : list log_entry;
}.

(** The daemon as the module is loaded: [new Map()], [[]], no connection. *)
Definition initial : state :=
  {| pendingRequests := ∅; commandQueue := []; timers := ∅; nextTimer := 0;
     buffers := ∅; sent := []; replies := []; logged := [] |}.

Definition with_pendingRequests (m : gmap key pending) (st : state) : state :=
  {| pendingRequests := m; commandQueue := commandQueue st; timers := timers st;
     nextTimer := nextTimer st; buffers := buffers st; sent := sent st;
     replies := replies st; logged := logged st |}.

Definition with_commandQueue (q : list value) (st : state) : state :=
  {| pendingRequests := pendingRequests st; commandQueue := q; timers := timers st;
     nextTimer := nextTimer st; buffers := buffers st; sent := sent st;
     replies := replies st; logged := logged st |}.

Definition with_timers (m : gmap handle timer) (st : state) : state :=
  {| pendingRequests := pendingRequests st; commandQueue := commandQueue st; timers := m;
     nextTimer := nextTimer st; buffers := buffers st; sent := sent st;
     replies := replies st; logged := logged st |}.

Definition with_buffers (m : gmap sock string) (st : state) : state :=
  {| pendingRequests := pendingRequests st; commandQueue := commandQueue st;
     timers := timers st; nextTimer := nextTimer st; buffers := m; sent := sent st;
     replies := replies st; logged := logged st |}.

(** [log(message)]: appends to the log file and touches nothing else. *)
Definition log (e : log_entry) (st : state) : state :=
  {| pendingRequests := pendingRequests st; commandQueue := commandQueue st;
     timers := timers st; nextTimer := nextTimer st; buffers := buffers st;
     sent := sent st; replies := replies st; logged := logged st ++ [e] |}.

(** [socket.write(JSON.stringify(v) + '\n')]. *)
Definition socket_write (s : sock) (v : value) (o : origin) (st : state) : state :=
  {| pendingRequests := pendingRequests st; commandQueue := commandQueue st;
     timers := timers st; nextTimer := nextTimer st; buffers := buffers st;
     sent := sent st ++ [{| to := s; payload := v; issued := o |}];
     replies := replies st; logged := logged st |}.

(** [res.writeHead(...); res.end(...)]. *)
Definition respond (r : reply) (st : state) : state :=
  {| pendingRequests := pendingRequests st; commandQueue := commandQueue st;
     timers := timers st; nextTimer := nextTimer st; buffers := buffers st;
     sent := sent st; replies := replies st ++ [r]; logged := logged st |}.

(** [setTimeout(callback, ms)]: arms a new timer; its handle is the
    [nextTimer] of the state it is called in. *)
Definition setTimeout (s : sock) (command : value) (ms : N) (st : state) : state :=
  {| pendingRequests := pendingRequests st; commandQueue := commandQueue st;
     timers := <[nextTimer st := {| timer_socket := s; timer_command := command;
                                    delay := ms |}]> (timers st);
     nextTimer := S (nextTimer st); buffers := buffers st; sent := sent st;
     replies := replies st; logged := logged st |}.

(** [clearTimeout(t)]. *)
Definition clearTimeout (t : handle) (st : state) : state :=
  with_timers (delete t (timers st)) st.

(** ** Strings

    A JavaScript string is a Rocq [string]; a character stands for the code
    unit of the same number, so the text is within U+0000 to U+00FF. *)

Definition newline : ascii := ascii_of_nat 10.

(** [s.split('\n')]: the pieces between newlines, never an empty array. *)
Fixpoint split_newline (s : string) : list string :=
  match s with
  | EmptyString => [EmptyString]
  | String c rest =>
      if decide (c = newline) then EmptyString :: split_newline rest
      else match split_newline rest with
           | piece :: pieces => String c piece :: pieces
           | [] => [String c EmptyString]
           end
  end.

(** The white space and line terminators [trim] strips, among the code units
    modelled: TAB, LF, VT, FF, CR, SP and NBSP. *)
Definition is_white (c : ascii) : bool :=
  let n := nat_of_ascii c in
  ((9 <=? n) && (n <=? 13) || (n =? 32) || (n =? 160))%nat.

(** [!line.trim()]: nothing is left of the line once trimmed. *)
Fixpoint trims_to_empty (line : string) : bool :=
  match line with
  | EmptyString => true
  | String c rest => is_white c && trims_to_empty rest
  end.

(** ** The socket server (lines 109 to 147) *)

(** The [catch] of the loop body (lines 138 to 141). *)
Definition reject_line (s : sock) (message : string) (st : state) : state :=
  socket_write s (JObj [("success", JBool false); ("error", JStr message)]) ByCatch
    (log (ErrorProcessing message) st).

(** The template literal of line 137, [`... ${command.requestId} ...`]:
    the message of the error the conversion to a string throws, if it does.
    [undefined] is converted without a call. *)
Definition requestId_text_error (requestId : option value) : option string :=
  match requestId with
  | Some v => ToString_error v
  | None => None
  end.

(** The body of [for (const line of lines)] for a line that is not blank
    (lines 120 to 141).  The timer is armed before [command.requestId] is
    first read, at line 135; the entry is set and the command pushed before
    the message of line 137 is made, and what that throws is caught like the
    rest. *)
Definition process_line (s : sock) (line : string) (st : state) : state :=
  match JSON_parse line with
  | Throw message => reject_line s message st
  | Normal command =>
      let st := log (ReceivedCommand command) st in
      let t := nextTimer st in
      let st := setTimeout s command 30000%N st in
      match command_requestId command with
      | Throw message => reject_line s message st
      | Normal requestId =>
          let st := with_pendingRequests
                      (<[key_of t requestId := {| socket := s; timeout := t |}]>
                         (pendingRequests st)) st in
          let st := with_commandQueue (commandQueue st ++ [command]) st in
          match requestId_text_error requestId with
          | Some message => reject_line s message st
          | None => log (QueuedCommand requestId) st
          end
      end
  end.

(** One turn of the loop, with its [continue] for blank lines (line 119). *)
Definition loop_body (s : sock) (st : state) (line : string) : state :=
  if trims_to_empty line then st else process_line s line st.

(** [socket.on('data', ...)] (lines 113 to 143), [chunk] being the text that
    [data.toString()] made of the [Buffer]: the last piece of the split is
    kept as the new [buffer], the pieces before it are the lines. *)
Definition on_data (s : sock) (chunk : string) (st : state) : state :=
  let buffer := default EmptyString (buffers st !! s) ++ chunk in
  let lines := split_newline buffer in
  let st := with_buffers (<[s := List.last lines EmptyString]> (buffers st)) st in
  foldl (loop_body s) st (removelast lines).

(** A new connection (lines 110 and 111). *)
Definition on_connection (s : sock) (st : state) : state :=
  with_buffers (<[s := EmptyString]> (buffers st)) (log ClientConnected st).

(** [socket.on('end', ...)] and [socket.on('error', ...)] (lines 145, 146). *)
Definition on_end (s : sock) (st : state) : state := log ClientDisconnected st.
Definition on_error (s : sock) (message : string) (st : state) : state :=
  log (SocketError message) st.

(** ** The timer callback (lines 124 to 133)

    It runs outside any [try]: what it throws ends the process. *)
Definition timeout_result (requestId : option value) : value :=
  JObj (match requestId with
        | Some v => [("requestId", v)]
        | None => []
        end
        ++ [("success", JBool false);
            ("error", JStr "Timeout waiting for extension response")]).

Definition on_timeout (t : handle) (st : state) : completion state :=
  match timers st !! t with
  | None => Normal st
  | Some c =>
      let st := with_timers (delete t (timers st)) st in
      match command_requestId (timer_command c) with
      | Throw message => Throw message
      | Normal requestId =>
          let k := key_of t requestId in
          match pendingRequests st !! k with
          | Some _ =>
              let st := with_pendingRequests (delete k (pendingRequests st)) st in
              Normal (socket_write (timer_socket c) (timeout_result requestId)
                        (ByTimer t) st)
          | None => Normal st
          end
      end
  end.

(** ** The HTTP server (lines 38 to 85) *)

(** The [catch] of the request handler (lines 79 to 83). *)
Definition http_error (message : string) (st : state) : state :=
  respond {| status := 500; content_type := None; content := Text message |}
    (log (HttpError message) st).

(** [GET /poll] (lines 44 to 52). *)
Definition poll (st : state) : state :=
  match commandQueue st with
  | command :: rest =>
      let st := with_commandQueue rest st in
      let st := log (SendingCommand command) st in
      respond {| status := 200; content_type := Some "application/json";
                 content := Json command |} st
  | [] => respond {| status := 204; content_type := None; content := NoBody |} st
  end.

(** [pendingRequests.has(requestId)] followed by [get] (lines 58, 59). *)
Definition find_pending (requestId : option value) (st : state) : option (key * pending) :=
  match response_key requestId with
  | Some k => match pendingRequests st !! k with
              | Some p => Some (k, p)
              | None => None
              end
  | None => None
  end.

(** [POST /response] (lines 54 to 67). *)
Definition post_response (text : string) (st : state) : state :=
  match JSON_parse text with
  | Throw message => http_error message st
  | Normal response =>
      let st := log (ReceivedResponse response) st in
      match destructure_requestId response with
      | Throw message => http_error message st
      | Normal requestId =>
          let st :=
            match find_pending requestId st with
            | Some (k, p) =>
                let st := clearTimeout (timeout p) st in
                let st := with_pendingRequests (delete k (pendingRequests st)) st in
                let st := socket_write (socket p) response (ByResponse (timeout p)) st in
                log (SentResponse requestId) st
            | None => st
            end in
          respond {| status := 200; content_type := None; content := Text "OK" |} st
      end
  end.

(** [GET /health] (lines 69 to 74). *)
Definition health (st : state) : state :=
  respond {| status := 200; content_type := Some "application/json";
             content := Json (JObj
               [("status", JStr "ok");
                ("pending", JNum (number_of_nat (size (pendingRequests st))));
                ("queued", JNum (number_of_nat (length (commandQueue st))))]) |} st.

(** The request handler, called when the request body has arrived whole
    (lines 41 to 84). *)
Definition on_request (method url text : string) (st : state) : state :=
  if decide (method = "GET" ∧ url = "/poll") then poll st
  else if decide (method = "POST" ∧ url = "/response") then post_response text st
  else if decide (method = "GET" ∧ url = "/health") then health st
  else respond {| status := 404; content_type := None; content := Text "Not found" |} st.

(** ** Runs *)

(** What Node hands to the daemon: a new connection, a chunk of data on a
    connection (the bytes of one [Buffer]), the ['end'] of one, an ['error']
    on one, an HTTP request with the [body] line 40 has put together when
    its ['end'] comes, and the expiry of the delay of timer [t]. *)
Inductive event : Type :=
  | Connected (s : sock)
  | Data (s : sock) (chunk : string)
  | Ended (s : sock)
  | Errored (s : sock) (message : string)
  | Request (method url text : string)
  | Expired (t : handle).

(** One event, one handler.  Each [Buffer] is turned into text on its own
    (line 114).  [Throw] is an uncaught exception: the process exits.  A
    timer that is not armed does not fire: [on_timeout] leaves the state as
    it is. *)
Definition step (st : state) (e : event) : completion state :=
  match e with
  | Connected s => Normal (on_connection s st)
  | Data s chunk => Normal (on_data s (Buffer_toString chunk) st)
  | Ended s => Normal (on_end s st)
  | Errored s message => Normal (on_error s message st)
  | Request method url text => Normal (on_request method url text st)
  | Expired t => on_timeout t st
  end.

Fixpoint run (st : state) (events : list event) : completion state :=
  match events with
  | [] => Normal st
  | e :: rest => match step st e with
                 | Normal st' => run st' rest
                 | Throw message => Throw message
                 end
  end.

(** The states the daemon can be in. *)
Definition reachable (st : state) : Prop :=
  ∃ events, run initial events = Normal st.

(** ** Vocabulary of the specification *)

(** The pending call a write resolves: the one whose timer is the handle of
    its origin.  A write of the [catch] resolves none, not even the one for
    a command that line 137 threw on after it was filed. *)
Definition resolves (o : origin) : option handle :=
  match o with
  | ByResponse t | ByTimer t => Some t
  | ByCatch => None
  end.

(** The results that completions and timer callbacks have written for the
    call whose timer is [t]. *)
Definition results_for (t : handle) (ws : list write) : list write :=
  filter (λ w, resolves (issued w) = Some t) ws.

(** What holds of every state of a run: an entry of the table has its timer
    armed, and that timer's command is filed under the entry's key for the
    entry's connection; handles are handed out in order; a call whose timer
    is armed has no result of a completion or a timer yet, and no call has
    two of these. *)
Record consistent (st : state) : Prop := {
  pending_armed :
    ∀ k p, pendingRequests st !! k = Some p →
      ∃ c requestId, timers st !! timeout p = Some c
        ∧ command_requestId (timer_command c) = Normal requestId
        ∧ key_of (timeout p) requestId = k
        ∧ timer_socket c = socket p;
  timers_below :
    ∀ t c, timers st !! t = Some c → (t < nextTimer st)%nat;
  timers_delay :
    ∀ t c, timers st !! t = Some c → delay c = 30000%N;
  results_below :
    ∀ w t, w ∈ sent st → resolves (issued w) = Some t → (t < nextTimer st)%nat;
  armed_unanswered :
    ∀ t c, timers st !! t = Some c → results_for t (sent st) = [];
  answered_once :
    ∀ t, (length (results_for t (sent st)) ≤ 1)%nat;
}.

(** A state without its log. *)
Definition erase_log (st : state) : state :=
  {| pendingRequests := pendingRequests st; commandQueue := commandQueue st;
     timers := timers st; nextTimer := nextTimer st; buffers := buffers st;
     sent := sent st; replies := replies st; logged := [] |}.

(** The lines the ['data'] handler loops over when the text [chunk] arrives
    on [s]. *)
Definition lines_of (s : sock) (chunk : string) (st : state) : list string :=
  removelast (split_newline (default EmptyString (buffers st !! s) ++ chunk)).

(** The command a line puts on the queue, if it does. *)
Definition accepted (line : string) : option value :=
  if trims_to_empty line then None
  else match JSON_parse line with
       | Normal command =>
           match command_requestId command with
           | Normal _ => Some command
           | Throw _ => None
           end
       | Throw _ => None
       end.

(** The commands submitted along a run from [st], in the order of arrival,
    whatever the connection. *)
Fixpoint submissions (st : state) (events : list event) : list value :=
  match events with
  | [] => []
  | e :: rest =>
      match step st e with
      | Normal st' =>
          match e with
          | Data s chunk => omap accepted (lines_of s (Buffer_toString chunk) st)
          | _ => []
          end ++ submissions st' rest
      | Throw _ => []
      end
  end.

(** The HTTP requests of a run; each gets one reply. *)
Fixpoint requests (events : list event) : list event :=
  match events with
  | [] => []
  | Request method url text :: rest => Request method url text :: requests rest
  | _ :: rest => requests rest
  end.

(** The command a reply hands to the extension: the body of a [200] to a
    [GET /poll]. *)
Definition delivery (exchange : event * reply) : option value :=
  match exchange with
  | (Request method url _, {| status := 200; content := Json command |}) =>
      if decide (method = "GET" ∧ url = "/poll") then Some command else None
  | _ => None
  end.

(** The commands the polls of a run were given, first poll first; [rs] are
    the replies of the run. *)
Definition delivered (events : list event) (rs : list reply) : list value :=
  omap delivery (zip (requests events) rs).

(** A failure written by the [catch] of the loop: [success] and [error],
    nothing else. *)
Definition failure (message : string) : value :=
  JObj [("success", JBool false); ("error", JStr message)].

(** A write is well formed when, if it comes from the [catch] of the loop,
    it is a failure and no more. *)
Definition bare_failure (w : write) : Prop :=
  issued w = ByCatch → ∃ message, payload w = failure message.

(** From [st] to [st'] handles were only handed out upwards: a timer armed
    in [st'] was armed the same in [st], or is newer than all of [st]. *)
Definition timers_from (st st' : state) : Prop :=
  (nextTimer st ≤ nextTimer st')%nat
  ∧ ∀ t c, timers st' !! t = Some c →
           timers st !! t = Some c ∨ (nextTimer st ≤ t)%nat.

(** The lines of a text put back together, a newline after each. *)
Fixpoint unlines (lines : list string) : string :=
  match lines with
  | [] => EmptyString
  | line :: rest => line ++ String newline (unlines rest)
  end.

(** Whether a newline occurs in a text. *)
Fixpoint has_newline (s : string) : bool :=
  match s with
  | EmptyString => false
  | String c rest => if decide (c = newline) then true else has_newline rest
  end.

(** The state in which lines 124 to 136 leave a command: its timer armed,
    its entry set, the command at the back of the queue. *)
Definition filed (s : sock) (command : value) (requestId : option value)
    (st : state) : state :=
  with_commandQueue (commandQueue st ++ [command])
    (with_pendingRequests
       (<[key_of (nextTimer st) requestId :=
            {| socket := s; timeout := nextTimer st |}]> (pendingRequests st))
       (setTimeout s command 30000%N (log (ReceivedCommand command) st))).

(** The message of the failure the loop writes for a line, if it writes
    one: what [JSON.parse], the reading of [requestId] or
    the template literal of line 137 throws. *)
Definition refused (line : string) : option string :=
  if trims_to_empty line then None
  else match JSON_parse line with
       | Throw message => Some message
       | Normal command =>
           match command_requestId command with
           | Throw message => Some message
           | Normal requestId => requestId_text_error requestId
           end
       end.

(** The write of the [catch] of the loop on connection [s]. *)
Definition failure_to (s : sock) (message : string) : write :=
  {| to := s; payload := failure message; issued := ByCatch |}.

(** Whether a [requestId] is an object or an array, which a [Map] compares
    by identity. *)
Definition by_identity (requestId : option value) : bool :=
  match requestId with
  | Some (JArr _) | Some (JObj _) => true
  | _ => false
  end.

End Daemon.

Abbreviation value := (json number).


(** ** Scenarios

    Inputs written out for the reference engine.  In [json_text] an
    apostrophe stands for the double quote of JSON. *)
Module Scenario.
Import Reference.

Fixpoint json_text (s : string) : string :=
  match s with
  | EmptyString => EmptyString
  | String c rest =>
      String (if decide (c = "'"%char) then quote else c) (json_text rest)
  end.

(** A line as a client sends it: the text and a newline. *)
Definition sends (text : string) : string :=
  json_text text ++ String newline EmptyString.

(** The state a run from [initial] ends in. *)
Definition after (events : list event) : state :=
  match run initial events with
  | Normal st => st
  | Throw _ => initial
  end.

(** Whether a run from [initial] goes through without an uncaught error. *)
Definition completes (events : list event) : bool :=
  match run initial events with
  | Normal _ => true
  | Throw _ => false
  end.

Definition navigate_1 : string :=
  "{'type':'navigate','data':{'url':'https://x'},'requestId':1}".
Definition get_tabs_1 : string := "{'type':'get_tabs','data':{},'requestId':1}".
Definition click_3 : string :=
  "{'type':'click','data':{'selector':'#go','index':0},'requestId':3}".
Definition get_tabs_4 : string := "{'type':'get_tabs','data':{},'requestId':4}".
Definition done_1 : string := "{'requestId':1,'success':true,'data':{'tabId':7}}".
Definition done_99 : string := "{'requestId':99,'success':true}".
Definition cut_off : string := "{'type':'navigate','data':".
Definition the_rest : string := "{'url':'https://x'},'requestId':1}".

(** The state a run from [st] ends in, and whether it goes through. *)
Definition follow (st : state) (events : list event) : state :=
  match run st events with
  | Normal st' => st'
  | Throw _ => st
  end.

Definition goes_through (st : state) (events : list event) : bool :=
  match run st events with
  | Normal _ => true
  | Throw _ => false
  end.

Definition unprintable_id : string :=
  "{'type':'get_tabs','data':{},'requestId':{'toString':1}}".
Definition e_acute : string := String (ascii_of_nat 195) (String (ascii_of_nat 169) EmptyString).

Definition boxed_id : string := "{'type':'get_tabs','data':{},'requestId':{'n':1}}".
Definition done_boxed : string := "{'requestId':{'n':1},'success':true}".

End Scenario.

(** * Properties *)

Section Properties.
Context `{Engine}.

Arguments results_for : simpl never.

(** Two states equal up to their logs, taken apart field by field. *)
Ltac same_but_log a b Hsame :=
  destruct a, b; unfold erase_log in Hsame; cbn in Hsame;
  injection Hsame as -> -> -> -> -> -> ->.

(** Membership in a list that is written out. *)
Ltac in_list := repeat first [apply list_elem_of_here | apply list_elem_of_further].

Lemma results_for_snoc t ws w :
  results_for t (ws ++ [w]) =
  (results_for t ws ++ if decide (resolves (issued w) = Some t) then [w] else [])%list.
Proof. unfold results_for. rewrite filter_app. f_equal. Qed.

Lemma results_for_elem t ws w :
  w ∈ ws → resolves (issued w) = Some t → results_for t ws ≠ [].
Proof.
  intros Hin Hres Hnil.
  assert (w ∈ results_for t ws) as Hw by (apply list_elem_of_filter; done).
  rewrite Hnil in Hw. by apply not_elem_of_nil in Hw.
Qed.

(** [consistent] reads four fields only. *)
Lemma consistent_same st st' :
  pendingRequests st' = pendingRequests st →
  timers st' = timers st →
  nextTimer st' = nextTimer st →
  sent st' = sent st →
  consistent st → consistent st'.
Proof.
  intros Hp Ht Hn Hs [I1 I2 I3 I4 I5 I6].
  split; rewrite ?Hp, ?Ht, ?Hn, ?Hs; assumption.
Qed.

Lemma consistent_initial : consistent initial.
Proof.
  split; cbn; intros *; try (rewrite lookup_empty; done).
  - intros Hin. by apply not_elem_of_nil in Hin.
  - unfold results_for. cbn. lia.
Qed.

Lemma consistent_log e st : consistent st → consistent (log e st).
Proof. by apply consistent_same. Qed.

Lemma consistent_respond r st : consistent st → consistent (respond r st).
Proof. by apply consistent_same. Qed.

Lemma consistent_with_buffers m st : consistent st → consistent (with_buffers m st).
Proof. by apply consistent_same. Qed.

Lemma consistent_with_commandQueue q st :
  consistent st → consistent (with_commandQueue q st).
Proof. by apply consistent_same. Qed.

(** A write of the [catch] resolves no call. *)
Lemma consistent_catch_write s v st :
  consistent st → consistent (socket_write s v ByCatch st).
Proof.
  intros [I1 I2 I3 I4 I5 I6]. split; cbn; try assumption.
  - intros w t [Hin | Hin]%elem_of_app Hres; [by eapply I4 |].
    apply list_elem_of_singleton in Hin. subst w. discriminate.
  - intros t c Ht. rewrite results_for_snoc, (I5 t c Ht). cbn.
    by rewrite decide_False.
  - intros t. rewrite results_for_snoc. cbn. rewrite decide_False by done.
    rewrite length_app. cbn. specialize (I6 t). lia.
Qed.

Lemma consistent_reject_line s message st :
  consistent st → consistent (reject_line s message st).
Proof. intros. by apply consistent_catch_write, consistent_log. Qed.

(** Arming a timer keeps the invariant: its handle is new. *)
Lemma consistent_setTimeout s command st :
  consistent st → consistent (setTimeout s command 30000%N st).
Proof.
  intros [I1 I2 I3 I4 I5 I6]. split; cbn; try assumption.
  - intros k p Hk. destruct (I1 k p Hk) as (c & rid & Ht & Hrest).
    exists c, rid. split; [| done].
    rewrite lookup_insert_ne; [done |]. apply I2 in Ht. lia.
  - intros t c. rewrite lookup_insert. case_decide; [intros; lia |].
    intros Ht. apply I2 in Ht. lia.
  - intros t c. rewrite lookup_insert. case_decide; [| by apply I3].
    by intros [= <-].
  - intros w t Hin Hres. specialize (I4 w t Hin Hres). lia.
  - intros t c. rewrite lookup_insert. case_decide; [| by apply I5].
    intros _. subst t.
    destruct (results_for (nextTimer st) (sent st)) as [| w ws] eqn:E; [done |].
    assert (w ∈ results_for (nextTimer st) (sent st)) as Hw
      by (rewrite E; apply list_elem_of_here).
    apply list_elem_of_filter in Hw as [Hres Hin].
    specialize (I4 w _ Hin Hres). lia.
Qed.


(** Filing a call under the timer just armed for it. *)
Lemma consistent_file t c requestId s st :
  consistent st →
  timers st !! t = Some c →
  command_requestId (timer_command c) = Normal requestId →
  timer_socket c = s →
  consistent (with_pendingRequests
                (<[key_of t requestId := {| socket := s; timeout := t |}]>
                   (pendingRequests st)) st).
Proof.
  intros [I1 I2 I3 I4 I5 I6] Ht Hrid Hs. split; cbn; try assumption.
  intros k p. rewrite lookup_insert. case_decide as Hk.
  - intros [= <-]. cbn. by exists c, requestId.
  - apply I1.
Qed.

Lemma consistent_process_line s line st :
  consistent st → consistent (process_line s line st).
Proof.
  intros I. unfold process_line.
  destruct (JSON_parse line) as [command | message];
    [| by apply consistent_reject_line].
  destruct (command_requestId command) as [requestId | message] eqn:Hrid.
  - destruct (requestId_text_error requestId) as [message |];
      [apply consistent_reject_line | apply consistent_log];
      (apply consistent_with_commandQueue;
       eapply consistent_file;
         [by apply consistent_setTimeout, consistent_log
         | cbn; apply lookup_insert_eq | done | done]).
  - by apply consistent_reject_line, consistent_setTimeout, consistent_log.
Qed.

Lemma consistent_loop s lines st :
  consistent st → consistent (foldl (loop_body s) st lines).
Proof.
  revert st. induction lines as [| line lines IH]; intros st I; [done |].
  cbn. apply IH. unfold loop_body.
  destruct (trims_to_empty line); [done | by apply consistent_process_line].
Qed.

Lemma consistent_on_data s chunk st :
  consistent st → consistent (on_data s chunk st).
Proof. intros I. by apply consistent_loop, consistent_with_buffers. Qed.

(** Two entries of the table never share a timer. *)
Lemma consistent_timeout_key st k p k' p' :
  consistent st →
  pendingRequests st !! k = Some p →
  pendingRequests st !! k' = Some p' →
  timeout p = timeout p' → k = k'.
Proof.
  intros I Hk Hk' Heq.
  destruct (pending_armed st I k p Hk) as (c & rid & Ht & Hrid & Hkey & _).
  destruct (pending_armed st I k' p' Hk') as (c' & rid' & Ht' & Hrid' & Hkey' & _).
  rewrite Heq in Ht, Hkey. congruence.
Qed.

(** The found branch of [POST /response]. *)
Lemma consistent_answer k p v st :
  consistent st →
  pendingRequests st !! k = Some p →
  consistent
    (socket_write (socket p) v (ByResponse (timeout p))
       (with_pendingRequests
          (delete k (pendingRequests (clearTimeout (timeout p) st)))
          (clearTimeout (timeout p) st))).
Proof.
  intros I Hk. pose proof I as [I1 I2 I3 I4 I5 I6].
  destruct (I1 k p Hk) as (c & rid & Ht & Hrid & Hkey & Hsock).
  split; cbn.
  - intros k' p'. rewrite lookup_delete. case_decide as Hne; [done |].
    intros Hk'. destruct (I1 k' p' Hk') as (c' & rid' & Ht' & Hrest).
    exists c', rid'. split; [| done].
    rewrite lookup_delete_ne; [done |].
    intros Heq. apply Hne. by eapply consistent_timeout_key.
  - intros t c'. rewrite lookup_delete. case_decide; [done | apply I2].
  - intros t c'. rewrite lookup_delete. case_decide; [done | apply I3].
  - intros w t [Hin | Hin]%elem_of_app Hres; [by eapply I4 |].
    apply list_elem_of_singleton in Hin. subst w. cbn in Hres.
    injection Hres as <-. by eapply I2.
  - intros t c'. rewrite lookup_delete. case_decide as Hne; [done |].
    intros Ht'. rewrite results_for_snoc, (I5 t c' Ht'). cbn.
    rewrite decide_False; [done | congruence].
  - intros t. rewrite results_for_snoc, length_app. cbn.
    case_decide as Heq; cbn.
    + injection Heq as <-. rewrite (I5 _ c Ht). cbn. lia.
    + specialize (I6 t). lia.
Qed.

Lemma consistent_post_response text st :
  consistent st → consistent (post_response text st).
Proof.
  intros I. unfold post_response, http_error.
  destruct (JSON_parse text) as [response | message];
    [| by apply consistent_respond, consistent_log].
  destruct (destructure_requestId response) as [requestId | message];
    [| by apply consistent_respond, consistent_log, consistent_log].
  apply consistent_respond.
  destruct (find_pending requestId (log (ReceivedResponse response) st))
    as [[k p] |] eqn:Hfind; [| by apply consistent_log].
  apply consistent_log.
  unfold find_pending in Hfind.
  destruct (response_key requestId) as [k' |]; [| done].
  destruct (pendingRequests (log (ReceivedResponse response) st) !! k')
    as [p' |] eqn:Hk; [| done].
  injection Hfind as <- <-.
  by apply consistent_answer; [apply consistent_log |].
Qed.

Lemma consistent_on_request method url text st :
  consistent st → consistent (on_request method url text st).
Proof.
  intros I. unfold on_request. repeat case_decide.
  - unfold poll. destruct (commandQueue st);
      by repeat first [apply consistent_respond | apply consistent_log
                      | apply consistent_with_commandQueue].
  - by apply consistent_post_response.
  - by apply consistent_respond.
  - by apply consistent_respond.
Qed.

Lemma consistent_on_timeout t st st' :
  on_timeout t st = Normal st' → consistent st → consistent st'.
Proof.
  unfold on_timeout. intros Hrun I. pose proof I as [I1 I2 I3 I4 I5 I6].
  destruct (timers st !! t) as [c |] eqn:Ht; [| by injection Hrun as <-].
  destruct (command_requestId (timer_command c)) as [requestId | message] eqn:Hrid;
    [| done].
  cbn in Hrun.
  assert (∀ k p, pendingRequests st !! k = Some p → k ≠ key_of t requestId →
                 timeout p ≠ t) as Hother.
  { intros k p Hk Hne Heq. destruct (I1 k p Hk) as (c' & rid' & Ht' & Hrid' & Hkey & _).
    rewrite Heq in Ht', Hkey. apply Hne. congruence. }
  destruct (pendingRequests st !! key_of t requestId) as [p |] eqn:Hk;
    injection Hrun as <-; split; cbn.
  - intros k' p'. rewrite lookup_delete. case_decide as Hne; [done |].
    intros Hk'. destruct (I1 k' p' Hk') as (c' & rid' & Ht' & Hrest).
    exists c', rid'. split; [| done].
    rewrite lookup_delete_ne; [done |]. intros Heq.
    eapply Hother; [exact Hk' | congruence | congruence].
  - intros t' c'. rewrite lookup_delete. case_decide; [done | apply I2].
  - intros t' c'. rewrite lookup_delete. case_decide; [done | apply I3].
  - intros w t' [Hin | Hin]%elem_of_app Hres; [by eapply I4 |].
    apply list_elem_of_singleton in Hin. subst w. cbn in Hres.
    injection Hres as <-. by eapply I2.
  - intros t' c'. rewrite lookup_delete. case_decide as Hne; [done |].
    intros Ht'. rewrite results_for_snoc, (I5 t' c' Ht'). cbn.
    rewrite decide_False; [done | congruence].
  - intros t'. rewrite results_for_snoc, length_app. cbn.
    case_decide as Heq; cbn.
    + injection Heq as <-. rewrite (I5 _ c Ht). cbn. lia.
    + specialize (I6 t'). lia.
  - intros k' p' Hk'. destruct (I1 k' p' Hk') as (c' & rid' & Ht' & Hrest).
    exists c', rid'. split; [| done].
    rewrite lookup_delete_ne; [done |]. intros Heq.
    eapply Hother; [exact Hk' | | congruence]. intros ->. congruence.
  - intros t' c'. rewrite lookup_delete. case_decide; [done | apply I2].
  - intros t' c'. rewrite lookup_delete. case_decide; [done | apply I3].
  - done.
  - intros t' c'. rewrite lookup_delete. case_decide; [done | apply I5].
  - done.
Qed.

Lemma consistent_step st e st' :
  step st e = Normal st' → consistent st → consistent st'.
Proof.
  destruct e as [s | s chunk | s | s message | method url text | t]; cbn.
  - intros [= <-] I. by apply consistent_with_buffers, consistent_log.
  - intros [= <-] I. by apply consistent_on_data.
  - intros [= <-] I. by apply consistent_log.
  - intros [= <-] I. by apply consistent_log.
  - intros [= <-] I. by apply consistent_on_request.
  - apply consistent_on_timeout.
Qed.

Lemma consistent_run events : ∀ st st',
  run st events = Normal st' → consistent st → consistent st'.
Proof.
  induction events as [| e events IH]; intros st st'; cbn.
  - by intros [= <-].
  - destruct (step st e) as [st1 | message] eqn:Hstep; [| done].
    intros Hrun I. eapply IH; [exact Hrun |]. by eapply consistent_step.
Qed.

Lemma reachable_consistent st : reachable st → consistent st.
Proof. intros [events Hrun]. eapply consistent_run; [exact Hrun | apply consistent_initial]. Qed.

(** ** The pull endpoint *)

(** C5. [GET /poll] on a queue that is not empty takes off its head alone
    and answers 200 with that command as the JSON body; on an empty queue it
    answers 204 with no body and every part of the state is as before. *)
Theorem poll_takes_the_head_or_signals_empty (text : string) (st : state) :
  let st' := on_request "GET" "/poll" text st in
  match commandQueue st with
  | command :: rest =>
      commandQueue st' = rest
      ∧ replies st' = (replies st ++
          [{| status := 200; content_type := Some "application/json";
              content := Json command |}])%list
      ∧ pendingRequests st' = pendingRequests st
      ∧ timers st' = timers st
      ∧ nextTimer st' = nextTimer st
      ∧ buffers st' = buffers st
      ∧ sent st' = sent st
  | [] =>
      replies st' = (replies st ++
          [{| status := 204; content_type := None; content := NoBody |}])%list
      ∧ commandQueue st' = []
      ∧ pendingRequests st' = pendingRequests st
      ∧ timers st' = timers st
      ∧ nextTimer st' = nextTimer st
      ∧ buffers st' = buffers st
      ∧ sent st' = sent st
      ∧ logged st' = logged st
  end.
Proof.
  cbn. unfold on_request. rewrite decide_True by done. unfold poll.
  destruct (commandQueue st) as [| command rest] eqn:Hq; cbn; rewrite ?Hq; done.
Qed.

(** ** Diagnostics *)

(** C9. [GET /health] answers with the size of the table as [pending] and
    the length of the queue as [queued], and changes neither of them, nor a
    timer, nor anything else of the state. *)
Theorem health_reports_and_reads_only (text : string) (st : state) :
  let st' := on_request "GET" "/health" text st in
  replies st' = (replies st ++
      [{| status := 200; content_type := Some "application/json";
          content := Json (JObj
            [("status", JStr "ok");
             ("pending", JNum (number_of_nat (size (pendingRequests st))));
             ("queued", JNum (number_of_nat (length (commandQueue st))))]) |}])%list
  ∧ commandQueue st' = commandQueue st
  ∧ pendingRequests st' = pendingRequests st
  ∧ timers st' = timers st
  ∧ nextTimer st' = nextTimer st
  ∧ buffers st' = buffers st
  ∧ sent st' = sent st
  ∧ logged st' = logged st.
Proof.
  cbn. unfold on_request.
  rewrite decide_False by (intros [_ [=]]).
  rewrite decide_False by (intros [[=] _]).
  rewrite decide_True by done. done.
Qed.

(** ** The completion endpoint *)

Lemma on_request_response text st :
  on_request "POST" "/response" text st = post_response text st.
Proof.
  unfold on_request. rewrite decide_False by (intros [[=] _]).
  by rewrite decide_True.
Qed.

Lemma find_pending_none requestId st :
  (∀ k, response_key requestId = Some k → pendingRequests st !! k = None) →
  find_pending requestId st = None.
Proof.
  intros Hno. unfold find_pending.
  destruct (response_key requestId) as [k |]; [| done].
  by rewrite (Hno k eq_refl).
Qed.

(** What [POST /response] does when no entry matches. *)
Lemma post_response_unmatched text response requestId st :
  JSON_parse text = Normal response →
  destructure_requestId response = Normal requestId →
  (∀ k, response_key requestId = Some k → pendingRequests st !! k = None) →
  post_response text st =
  respond {| status := 200; content_type := None; content := Text "OK" |}
    (log (ReceivedResponse response) st).
Proof.
  intros Hparse Hid Hno. unfold post_response. rewrite Hparse, Hid.
  by rewrite find_pending_none.
Qed.

(** Once [POST /response] has run, no entry matches its [requestId]. *)
Lemma post_response_consumes text response requestId st :
  JSON_parse text = Normal response →
  destructure_requestId response = Normal requestId →
  ∀ k, response_key requestId = Some k →
       pendingRequests (post_response text st) !! k = None.
Proof.
  intros Hparse Hid k Hk. unfold post_response. rewrite Hparse, Hid.
  unfold find_pending. rewrite Hk. cbn.
  destruct (pendingRequests st !! k) as [p |] eqn:Hp; cbn; [| done].
  apply lookup_delete_eq.
Qed.

(** C3. A [POST /response] whose body parses to a result and whose
    [requestId] is the key of no entry is answered [200 OK]; the table, the
    queue and the timers stay as they are and nothing is written to a
    client.  Delivering any result a second time is such a call. *)
Theorem unmatched_response_is_a_no_op
    (text : string) (response : value) (requestId : option value) (st : state) :
  JSON_parse text = Normal response →
  destructure_requestId response = Normal requestId →
  (∀ st0,
     (∀ k, response_key requestId = Some k → pendingRequests st0 !! k = None) →
     let st' := on_request "POST" "/response" text st0 in
     replies st' = (replies st0 ++
         [{| status := 200; content_type := None; content := Text "OK" |}])%list
     ∧ pendingRequests st' = pendingRequests st0
     ∧ commandQueue st' = commandQueue st0
     ∧ timers st' = timers st0
     ∧ sent st' = sent st0)
  ∧ (let once := on_request "POST" "/response" text st in
     let twice := on_request "POST" "/response" text once in
     replies twice = (replies once ++
         [{| status := 200; content_type := None; content := Text "OK" |}])%list
     ∧ pendingRequests twice = pendingRequests once
     ∧ commandQueue twice = commandQueue once
     ∧ timers twice = timers once
     ∧ sent twice = sent once).
Proof.
  intros Hparse Hid.
  assert (∀ st0,
     (∀ k, response_key requestId = Some k → pendingRequests st0 !! k = None) →
     let st' := on_request "POST" "/response" text st0 in
     replies st' = (replies st0 ++
         [{| status := 200; content_type := None; content := Text "OK" |}])%list
     ∧ pendingRequests st' = pendingRequests st0
     ∧ commandQueue st' = commandQueue st0
     ∧ timers st' = timers st0
     ∧ sent st' = sent st0) as Hnoop.
  { intros st0 Hno. cbn. rewrite on_request_response.
    by rewrite (post_response_unmatched _ _ _ _ Hparse Hid Hno). }
  split; [exact Hnoop |].
  apply Hnoop. rewrite on_request_response.
  by apply (post_response_consumes _ _ _ _ Hparse Hid).
Qed.

(** ** Lines the daemon turns down *)

(** What the loop does with a line that [JSON.parse] refuses. *)
Lemma process_line_unparsed s line message st :
  JSON_parse line = Throw message →
  process_line s line st = reject_line s message st.
Proof. intros Hparse. unfold process_line. by rewrite Hparse. Qed.

(** C6, amended. A line that is not blank and that [JSON.parse] refuses is
    answered at once on its own connection with a failure; no entry is put
    in the table, no timer is armed and nothing is queued. *)
Theorem unparsed_line_is_turned_down
    (s : sock) (line message : string) (st : state) :
  trims_to_empty line = false →
  JSON_parse line = Throw message →
  let st' := loop_body s st line in
  sent st' = (sent st ++
      [{| to := s; payload := failure message; issued := ByCatch |}])%list
  ∧ pendingRequests st' = pendingRequests st
  ∧ commandQueue st' = commandQueue st
  ∧ timers st' = timers st
  ∧ nextTimer st' = nextTimer st.
Proof.
  intros Hblank Hparse. cbn. unfold loop_body. rewrite Hblank.
  by rewrite (process_line_unparsed _ _ _ _ Hparse).
Qed.

(** A blank line is passed over, whatever [JSON.parse] would say of it. *)
Lemma blank_line_is_skipped s line st :
  trims_to_empty line = true → loop_body s st line = st.
Proof. intros Hblank. unfold loop_body. by rewrite Hblank. Qed.

(** The line [null] parses, so its timer is armed before [command.requestId]
    throws into the same [catch]. *)
Lemma null_line_arms_a_timer s line st :
  JSON_parse line = Normal JNull →
  timers (process_line s line st) !! nextTimer st =
    Some {| timer_socket := s; timer_command := JNull; delay := 30000 |}
  ∧ sent (process_line s line st) = (sent st ++
      [{| to := s; payload := failure null_property_message; issued := ByCatch |}])%list
  ∧ pendingRequests (process_line s line st) = pendingRequests st
  ∧ commandQueue (process_line s line st) = commandQueue st.
Proof.
  intros Hparse. unfold process_line. rewrite Hparse. cbn.
  by rewrite lookup_insert_eq.
Qed.

(** That timer, when it fires, throws outside any [try]. *)
Lemma null_timer_ends_the_process t c st :
  timers st !! t = Some c → timer_command c = JNull →
  on_timeout t st = Throw null_property_message.
Proof. intros Ht Hc. unfold on_timeout. by rewrite Ht, Hc. Qed.

(** ** Every failure of the loop has the same two fields *)

Lemma bare_failure_loop s lines : ∀ st,
  Forall bare_failure (sent st) →
  Forall bare_failure (sent (foldl (loop_body s) st lines)).
Proof.
  induction lines as [| line lines IH]; intros st Hst; [done |].
  cbn. apply IH. unfold loop_body.
  destruct (trims_to_empty line); [done |]. unfold process_line.
  destruct (JSON_parse line) as [command | message];
    [destruct (command_requestId command) as [requestId | message];
       [destruct (requestId_text_error requestId) as [message |] |] |];
    cbn; try done;
    (apply Forall_app; split; [done |]; apply Forall_singleton;
     intros _; by eexists).
Qed.

Lemma bare_failure_step st e st' :
  step st e = Normal st' →
  Forall bare_failure (sent st) → Forall bare_failure (sent st').
Proof.
  destruct e as [s | s chunk | s | s message | method url text | t]; cbn;
    try (by intros [= <-]).
  - intros [= <-] Hst. by apply bare_failure_loop.
  - intros [= <-] Hst. unfold on_request. repeat case_decide; try done.
    + unfold poll. by destruct (commandQueue st).
    + unfold post_response.
      destruct (JSON_parse text) as [response | message]; [| done].
      destruct (destructure_requestId response) as [requestId | message]; [| done].
      destruct (find_pending requestId (log (ReceivedResponse response) st))
        as [[k p] |]; cbn; [| done].
      apply Forall_app; split; [done |]. by apply Forall_singleton.
  - unfold on_timeout. destruct (timers st !! t) as [c |]; [| by intros [= <-]].
    destruct (command_requestId (timer_command c)) as [requestId | message]; [| done].
    cbn. destruct (pendingRequests st !! key_of t requestId);
      intros [= <-] Hst; cbn; [| done].
    apply Forall_app; split; [done |]. by apply Forall_singleton.
Qed.

Lemma bare_failure_run events : ∀ st st',
  run st events = Normal st' →
  Forall bare_failure (sent st) → Forall bare_failure (sent st').
Proof.
  induction events as [| e events IH]; intros st st'; cbn.
  - by intros [= <-].
  - destruct (step st e) as [st1 | message] eqn:Hstep; [| done].
    intros Hrun Hst. eapply IH; [exact Hrun |]. by eapply bare_failure_step.
Qed.

(** C10. When [JSON.parse] refuses a line, the result written back is the
    object of [success: false] and [error] alone; and in every run, whatever
    the [catch] of the loop has written is such an object, in which
    [requestId] is undefined: nothing in it tells one line from another. *)
Theorem failure_carries_no_requestId :
  (∀ s line message st,
     JSON_parse line = Throw message →
     sent (process_line s line st) = (sent st ++
       [{| to := s;
           payload := JObj [("success", JBool false); ("error", JStr message)];
           issued := ByCatch |}])%list)
  ∧ (∀ events st w,
       run initial events = Normal st →
       w ∈ sent st → issued w = ByCatch →
       ∃ message,
         payload w = JObj [("success", JBool false); ("error", JStr message)]
         ∧ command_requestId (payload w) = Normal None).
Proof.
  split.
  - intros s line message st Hparse.
    by rewrite (process_line_unparsed _ _ _ _ Hparse).
  - intros events st w Hrun Hin Hcatch.
    assert (Forall bare_failure (sent st)) as Hall
      by (eapply bare_failure_run; [exact Hrun | by constructor]).
    rewrite Forall_forall in Hall.
    destruct (Hall w Hin Hcatch) as [message Hw].
    exists message. by rewrite Hw.
Qed.

(** ** The timeout *)

(** What the callback of an armed timer does when its call is on the table. *)
Lemma on_timeout_pending t c requestId p st :
  timers st !! t = Some c →
  command_requestId (timer_command c) = Normal requestId →
  pendingRequests st !! key_of t requestId = Some p →
  on_timeout t st =
  Normal (socket_write (timer_socket c) (timeout_result requestId) (ByTimer t)
            (with_pendingRequests (delete (key_of t requestId) (pendingRequests st))
               (with_timers (delete t (timers st)) st))).
Proof.
  intros Ht Hid Hp. unfold on_timeout. rewrite Ht, Hid. cbn. by rewrite Hp.
Qed.

(** And when it is not. *)
Lemma on_timeout_absent t c requestId st :
  timers st !! t = Some c →
  command_requestId (timer_command c) = Normal requestId →
  pendingRequests st !! key_of t requestId = None →
  on_timeout t st = Normal (with_timers (delete t (timers st)) st).
Proof.
  intros Ht Hid Hp. unfold on_timeout. rewrite Ht, Hid. cbn. by rewrite Hp.
Qed.

(** C2, amended. When the timer of an accepted command expires with the
    command's [requestId] still on the table, the callback takes the entry
    off and writes to the connection the command came on exactly
    [{requestId, success: false, error: "Timeout waiting for extension
    response"}], [requestId] being the command's (the field is left out when
    the command has none).  Every timer is set for 30000 ms. *)
Theorem expired_timer_fails_the_call
    (st : state) (t : handle) (c : timer) (requestId : option value) (p : pending) :
  reachable st →
  timers st !! t = Some c →
  command_requestId (timer_command c) = Normal requestId →
  pendingRequests st !! key_of t requestId = Some p →
  ∃ st',
    step st (Expired t) = Normal st'
    ∧ delay c = 30000%N
    ∧ pendingRequests st' = delete (key_of t requestId) (pendingRequests st)
    ∧ timers st' = delete t (timers st)
    ∧ commandQueue st' = commandQueue st
    ∧ sent st' = (sent st ++
        [{| to := timer_socket c;
            payload := JObj (match requestId with
                             | Some v => [("requestId", v)]
                             | None => []
                             end
                             ++ [("success", JBool false);
                                 ("error", JStr "Timeout waiting for extension response")]);
            issued := ByTimer t |}])%list.
Proof.
  intros Hreach Ht Hid Hp. eexists. split.
  - cbn. by apply (on_timeout_pending _ _ _ _ _ Ht Hid Hp).
  - split; [| done]. eapply timers_delay; [by apply reachable_consistent | exact Ht].
Qed.

(** ** Timers keep their closure *)

Lemma timers_from_refl st : timers_from st st.
Proof. split; [done | by left]. Qed.

Lemma timers_from_trans a b c :
  timers_from a b → timers_from b c → timers_from a c.
Proof.
  intros [Hab1 Hab2] [Hbc1 Hbc2]. split; [lia |].
  intros t cl Ht. destruct (Hbc2 t cl Ht) as [Hb | Hb]; [by apply Hab2 | right; lia].
Qed.

(** Same counter, timers only removed. *)
Lemma timers_from_removed st st' :
  nextTimer st' = nextTimer st →
  (∀ t c, timers st' !! t = Some c → timers st !! t = Some c) →
  timers_from st st'.
Proof. intros Hn Hsub. split; [lia | intros t c Ht; left; by apply Hsub]. Qed.

Lemma timers_from_same st st' :
  timers st' = timers st → nextTimer st' = nextTimer st → timers_from st st'.
Proof. intros Ht Hn. split; [lia | intros t c; rewrite Ht; by left]. Qed.

Lemma timers_from_process_line s line st :
  timers_from st (process_line s line st).
Proof.
  unfold process_line.
  destruct (JSON_parse line) as [command | message]; [| by apply timers_from_same].
  destruct (command_requestId command) as [requestId | message];
    [destruct (requestId_text_error requestId) as [message |] |];
    (split; cbn; [lia |]; intros t c; rewrite lookup_insert;
     case_decide; [right; lia | by left]).
Qed.

Lemma timers_from_loop s lines : ∀ st,
  timers_from st (foldl (loop_body s) st lines).
Proof.
  induction lines as [| line lines IH]; intros st; [by apply timers_from_same |].
  cbn. eapply timers_from_trans; [| apply IH]. unfold loop_body.
  destruct (trims_to_empty line);
    [by apply timers_from_same | apply timers_from_process_line].
Qed.

Lemma timers_from_step st e st' :
  step st e = Normal st' → timers_from st st'.
Proof.
  destruct e as [s | s chunk | s | s message | method url text | t]; cbn;
    try (intros [= <-]; by apply timers_from_same).
  - intros [= <-]. apply (timers_from_loop s _ (with_buffers _ st)).
  - intros [= <-]. unfold on_request. repeat case_decide;
      try by apply timers_from_same.
    + unfold poll. destruct (commandQueue st); by apply timers_from_same.
    + unfold post_response.
      destruct (JSON_parse text) as [response | message];
        [| by apply timers_from_same].
      destruct (destructure_requestId response) as [requestId | message];
        [| by apply timers_from_same].
      destruct (find_pending requestId (log (ReceivedResponse response) st))
        as [[k p] |]; [| by apply timers_from_same].
      apply timers_from_removed; [done |]. cbn. intros t c.
      rewrite lookup_delete. by case_decide.
  - unfold on_timeout. destruct (timers st !! t) as [c |] eqn:Ht;
      [| intros [= <-]; by apply timers_from_same].
    destruct (command_requestId (timer_command c)) as [requestId | message]; [| done].
    cbn. destruct (pendingRequests st !! key_of t requestId);
      intros [= <-]; (apply timers_from_removed; [done |]; cbn; intros t' c';
                      rewrite lookup_delete; by case_decide).
Qed.

Lemma timers_from_run events : ∀ st st',
  run st events = Normal st' → timers_from st st'.
Proof.
  induction events as [| e events IH]; intros st st'; cbn.
  - intros [= <-]. apply timers_from_refl.
  - destruct (step st e) as [st1 | message] eqn:Hstep; [| done].
    intros Hrun. eapply timers_from_trans; [by eapply timers_from_step | by apply IH].
Qed.

(** A timer armed before a run and still armed after it has the closure it
    was armed with. *)
Lemma armed_timer_keeps_closure events st st' t c c' :
  run st events = Normal st' →
  consistent st →
  timers st !! t = Some c → timers st' !! t = Some c' → c' = c.
Proof.
  intros Hrun I Ht Ht'. destruct (timers_from_run _ _ _ Hrun) as [_ Hfrom].
  destruct (Hfrom t c' Ht') as [Hsame | Hnew];
    [congruence |].
  apply (timers_below st I) in Ht. lia.
Qed.

(** ** A [requestId] submitted twice *)

(** What the loop does with a line that parses to a command: it files the
    command, then logs, or writes the failure of what line 137 threw. *)
Lemma process_line_accepted s line command requestId st :
  JSON_parse line = Normal command →
  command_requestId command = Normal requestId →
  process_line s line st =
  match requestId_text_error requestId with
  | Some message => reject_line s message (filed s command requestId st)
  | None => log (QueuedCommand requestId) (filed s command requestId st)
  end.
Proof. intros Hparse Hid. unfold process_line. by rewrite Hparse, Hid. Qed.

(** Either way table, timers and queue are those of the filed command. *)
Lemma process_line_files s line command requestId st :
  JSON_parse line = Normal command →
  command_requestId command = Normal requestId →
  let st' := process_line s line st in
  pendingRequests st' =
    <[key_of (nextTimer st) requestId :=
        {| socket := s; timeout := nextTimer st |}]> (pendingRequests st)
  ∧ timers st' =
      <[nextTimer st := {| timer_socket := s; timer_command := command;
                           delay := 30000%N |}]> (timers st)
  ∧ nextTimer st' = S (nextTimer st)
  ∧ commandQueue st' = (commandQueue st ++ [command])%list
  ∧ buffers st' = buffers st
  ∧ replies st' = replies st.
Proof.
  intros Hparse Hid. cbn. rewrite (process_line_accepted _ _ _ _ _ Hparse Hid).
  by destruct (requestId_text_error requestId).
Qed.

(** What it writes is the failure of line 137, if that line throws. *)
Lemma process_line_accepted_sent s line command requestId st :
  JSON_parse line = Normal command →
  command_requestId command = Normal requestId →
  sent (process_line s line st) =
  (sent st ++ match requestId_text_error requestId with
              | Some message =>
                  [{| to := s; payload := failure message; issued := ByCatch |}]
              | None => []
              end)%list.
Proof.
  intros Hparse Hid. rewrite (process_line_accepted _ _ _ _ _ Hparse Hid).
  destruct (requestId_text_error requestId); cbn; [done | by rewrite app_nil_r].
Qed.

(** C7. A command whose [requestId] is already a key of the table takes the
    place of the entry found there: the table has as many entries as before
    and none of them holds the earlier timer.  That timer stays armed with
    the earlier connection in its closure; when it fires later in the run,
    it takes off whatever entry is then under the [requestId] and writes the
    timeout failure to the earlier connection. *)
Theorem resubmitted_requestId_replaces_the_entry
    (s : sock) (line : string) (command : value) (requestId : option value)
    (old : pending) (st : state) :
  reachable st →
  JSON_parse line = Normal command →
  command_requestId command = Normal requestId →
  pendingRequests st !! key_of (nextTimer st) requestId = Some old →
  let k := key_of (nextTimer st) requestId in
  let st' := process_line s line st in
  pendingRequests st' =
    <[k := {| socket := s; timeout := nextTimer st |}]> (pendingRequests st)
  ∧ size (pendingRequests st') = size (pendingRequests st)
  ∧ (∀ k' p', pendingRequests st' !! k' = Some p' → timeout p' ≠ timeout old)
  ∧ ∃ c earlier,
      timers st' !! timeout old = Some c
      ∧ timer_socket c = socket old
      ∧ command_requestId (timer_command c) = Normal earlier
      ∧ key_of (timeout old) earlier = k
      ∧ ∀ events later p,
          run st' events = Normal later →
          is_Some (timers later !! timeout old) →
          pendingRequests later !! k = Some p →
          ∃ st'',
            step later (Expired (timeout old)) = Normal st''
            ∧ pendingRequests st'' = delete k (pendingRequests later)
            ∧ sent st'' = (sent later ++
                [{| to := socket old; payload := timeout_result earlier;
                    issued := ByTimer (timeout old) |}])%list.
Proof.
  intros Hreach Hparse Hid Hold k st'.
  pose proof (reachable_consistent _ Hreach) as I.
  assert (consistent st') as I' by (by apply consistent_process_line).
  destruct (pending_armed st I _ old Hold) as (c & earlier & Ht & Hearlier & Hkey & Hsock).
  assert (timeout old < nextTimer st)%nat as Hlt by (by eapply timers_below).
  assert (pendingRequests st' = <[k := {| socket := s; timeout := nextTimer st |}]>
                                  (pendingRequests st)) as Htable.
  { apply (process_line_files _ _ _ _ _ Hparse Hid). }
  assert (timers st' !! timeout old = Some c) as Ht'.
  { subst st'. destruct (process_line_files s _ _ _ st Hparse Hid) as (_ & -> & _).
    rewrite lookup_insert_ne; [done | lia]. }
  split; [exact Htable |]. split; [| split].
  - rewrite Htable. apply map_size_insert_Some. by exists old.
  - intros k' p'. rewrite Htable, lookup_insert. case_decide as Hk.
    + intros [= <-]. cbn. lia.
    + intros Hk' Heq. apply Hk. symmetry.
      eapply (consistent_timeout_key st); [exact I | exact Hk' | exact Hold | exact Heq].
  - exists c, earlier. repeat split; try done.
    intros events later p Hrun [c' Hc'] Hp.
    assert (c' = c) as -> by (by eapply armed_timer_keeps_closure).
    eexists. split; [| split].
    + cbn. apply (on_timeout_pending _ _ _ p _ Hc' Hearlier).
      by rewrite Hkey.
    + cbn. by rewrite Hkey.
    + cbn. by rewrite Hsock.
Qed.

(** ** The completion and the timer of a call *)

Lemma short_list_elements {A} (l : list A) (x y : A) :
  (length l ≤ 1)%nat → x ∈ l → y ∈ l → x = y.
Proof.
  destruct l as [| a [| b l]]; cbn; intros Hlen Hx Hy; [| | lia].
  - by apply not_elem_of_nil in Hx.
  - apply list_elem_of_singleton in Hx, Hy. congruence.
Qed.

(** What [POST /response] does when an entry matches. *)
Lemma post_response_matched text response requestId k p st :
  JSON_parse text = Normal response →
  destructure_requestId response = Normal requestId →
  response_key requestId = Some k →
  pendingRequests st !! k = Some p →
  post_response text st =
  respond {| status := 200; content_type := None; content := Text "OK" |}
    (log (SentResponse requestId)
       (socket_write (socket p) response (ByResponse (timeout p))
          (with_pendingRequests (delete k (pendingRequests st))
             (clearTimeout (timeout p) (log (ReceivedResponse response) st))))).
Proof.
  intros Hparse Hid Hk Hp. unfold post_response. rewrite Hparse, Hid.
  unfold find_pending. rewrite Hk. cbn. by rewrite Hp.
Qed.

(** X13. Between the completion of a call and its timer, one wins.  Every
    accepted line arms one timer, and the handle of that timer names the
    call.  In every run the completions and the timer callbacks together
    write at most one result for a call, so never the extension's and the
    timeout's both.  A completion that finds the entry clears its timer,
    takes the entry off and writes the result to the entry's connection;
    one that finds no entry writes nothing and leaves table and timers
    alone.  A timer that fires and finds the entry under its [requestId]
    takes it off and writes the timeout failure to the connection of its
    command; one that finds no entry writes nothing and leaves the table
    alone.  And a line accepted writes nothing when line 137 turns its
    [requestId] into text: the result of such a call is one of these two,
    no other. *)
Theorem completion_and_timeout_exclude_each_other
    (events : list event) (st : state) :
  run initial events = Normal st →
  (∀ t, (length (results_for t (sent st)) ≤ 1)%nat)
  ∧ (∀ t w w', w ∈ sent st → w' ∈ sent st →
               issued w = ByResponse t → issued w' = ByTimer t → False)
  ∧ (∀ text response requestId k p,
       JSON_parse text = Normal response →
       destructure_requestId response = Normal requestId →
       response_key requestId = Some k →
       pendingRequests st !! k = Some p →
       let st' := on_request "POST" "/response" text st in
       timers st' = delete (timeout p) (timers st)
       ∧ pendingRequests st' = delete k (pendingRequests st)
       ∧ sent st' = (sent st ++
           [{| to := socket p; payload := response;
               issued := ByResponse (timeout p) |}])%list)
  ∧ (∀ text response requestId,
       JSON_parse text = Normal response →
       destructure_requestId response = Normal requestId →
       (∀ k, response_key requestId = Some k → pendingRequests st !! k = None) →
       let st' := on_request "POST" "/response" text st in
       sent st' = sent st
       ∧ pendingRequests st' = pendingRequests st
       ∧ timers st' = timers st)
  ∧ (∀ t c requestId p,
       timers st !! t = Some c →
       command_requestId (timer_command c) = Normal requestId →
       pendingRequests st !! key_of t requestId = Some p →
       ∃ st',
         step st (Expired t) = Normal st'
         ∧ timers st' = delete t (timers st)
         ∧ pendingRequests st' = delete (key_of t requestId) (pendingRequests st)
         ∧ sent st' = (sent st ++
             [{| to := timer_socket c; payload := timeout_result requestId;
                 issued := ByTimer t |}])%list)
  ∧ (∀ t c requestId,
       timers st !! t = Some c →
       command_requestId (timer_command c) = Normal requestId →
       pendingRequests st !! key_of t requestId = None →
       ∃ st',
         step st (Expired t) = Normal st'
         ∧ timers st' = delete t (timers st)
         ∧ sent st' = sent st
         ∧ pendingRequests st' = pendingRequests st
         ∧ commandQueue st' = commandQueue st)
  ∧ (∀ s line command requestId,
       JSON_parse line = Normal command →
       command_requestId command = Normal requestId →
       requestId_text_error requestId = None →
       sent (process_line s line st) = sent st).
Proof.
  intros Hrun.
  assert (consistent st) as I by (apply reachable_consistent; by exists events).
  split; [apply (answered_once st I) |].
  split; [| split; [| split; [| split; [| split]]]].
  - intros t w w' Hw Hw' Hby Hby'.
    assert (w = w') as ->; [| congruence].
    apply (short_list_elements (results_for t (sent st)));
      [apply (answered_once st I) | |];
      apply list_elem_of_filter; (split; [| done]); [by rewrite Hby | by rewrite Hby'].
  - intros text response requestId k p Hparse Hid Hk Hp. cbn.
    rewrite on_request_response.
    by rewrite (post_response_matched _ _ _ _ _ _ Hparse Hid Hk Hp).
  - intros text response requestId Hparse Hid Hno. cbn.
    rewrite on_request_response.
    by rewrite (post_response_unmatched _ _ _ _ Hparse Hid Hno).
  - intros t c requestId p Ht Hid Hp. eexists. split.
    + cbn. by apply (on_timeout_pending _ _ _ _ _ Ht Hid Hp).
    + done.
  - intros t c requestId Ht Hid Hp. eexists. split.
    + cbn. by apply (on_timeout_absent _ _ _ _ Ht Hid Hp).
    + done.
  - intros s line command requestId Hparse Hid Htext.
    rewrite (process_line_accepted_sent _ _ _ _ _ Hparse Hid), Htext.
    apply app_nil_r.
Qed.

(** ** First in, first out *)

(** The loop leaves the replies alone and appends to the queue the commands
    of the lines it accepts, in the order of the lines. *)
Lemma loop_queue s lines : ∀ st,
  replies (foldl (loop_body s) st lines) = replies st
  ∧ commandQueue (foldl (loop_body s) st lines) =
      (commandQueue st ++ omap accepted lines)%list.
Proof.
  induction lines as [| line lines IH]; intros st; cbn.
  - by rewrite app_nil_r.
  - destruct (IH (loop_body s st line)) as [-> ->].
    unfold loop_body, accepted.
    destruct (trims_to_empty line); [done |]. unfold process_line.
    destruct (JSON_parse line) as [command | message]; [| done].
    destruct (command_requestId command) as [requestId | message]; cbn; [| done].
    destruct (requestId_text_error requestId); cbn; by rewrite <- app_assoc.
Qed.

(** What one event does to the replies and to the queue. *)
Lemma step_exchange st e st' :
  step st e = Normal st' →
  match e with
  | Request _ _ _ =>
      ∃ r, replies st' = (replies st ++ [r])%list
           ∧ match delivery (e, r) with
             | Some command => commandQueue st = command :: commandQueue st'
             | None => commandQueue st' = commandQueue st
             end
  | Data s chunk =>
      replies st' = replies st
      ∧ commandQueue st' =
          (commandQueue st ++
           omap accepted (lines_of s (Buffer_toString chunk) st))%list
  | _ => replies st' = replies st ∧ commandQueue st' = commandQueue st
  end.
Proof.
  destruct e as [s | s chunk | s | s message | method url text | t]; cbn;
    try (by intros [= <-]).
  - intros [= <-]. apply (loop_queue s _ (with_buffers _ st)).
  - intros [= <-]. unfold on_request.
    destruct (decide (method = "GET" ∧ url = "/poll")) as [Hpoll | Hpoll].
    + unfold poll. destruct (commandQueue st) as [| command rest] eqn:Hq;
        eexists; (split; [reflexivity |]); cbn; rewrite ?decide_True; done.
    + repeat case_decide.
      * unfold post_response, http_error.
        destruct (JSON_parse text) as [response | message];
          [| eexists; by split].
        destruct (destructure_requestId response) as [requestId | message];
          [| eexists; by split].
        destruct (find_pending requestId (log (ReceivedResponse response) st))
          as [[k p] |]; eexists; by split.
      * eexists. by split.
      * eexists. by split.
  - unfold on_timeout. destruct (timers st !! t) as [c |]; [| by intros [= <-]].
    destruct (command_requestId (timer_command c)) as [requestId | message]; [| done].
    cbn. by destruct (pendingRequests st !! key_of t requestId); intros [= <-].
Qed.

Lemma delivered_request method url text events r rs :
  delivered (Request method url text :: events) (r :: rs) =
  (match delivery (Request method url text, r) with
   | Some command => [command]
   | None => []
   end ++ delivered events rs)%list.
Proof.
  unfold delivered. cbn [requests zip zip_with omap list_omap].
  by destruct (delivery (Request method url text, r)).
Qed.

(** From any state: every request of the run gets one reply, and what was
    queued, then what the run submits, is what the run delivers, then what
    is left in the queue. *)
Lemma run_fifo events : ∀ st st',
  run st events = Normal st' →
  ∃ rs, replies st' = (replies st ++ rs)%list
        ∧ length rs = length (requests events)
        ∧ (commandQueue st ++ submissions st events)%list =
          (delivered events rs ++ commandQueue st')%list.
Proof.
  induction events as [| e events IH]; intros st st'; cbn [run submissions].
  - intros [= <-]. exists []. by rewrite !app_nil_r.
  - destruct (step st e) as [st1 | message] eqn:Hstep; [| done].
    intros Hrun. destruct (IH _ _ Hrun) as (rs & Hrs & Hlen & Hfifo).
    pose proof (step_exchange _ _ _ Hstep) as Hex.
    destruct e as [s | s chunk | s | s message | method url text | t];
      try (destruct Hex as [Hr Hq]; exists rs; rewrite Hrs, Hr;
           split; [done |]; split; [exact Hlen |];
           match goal with
           | |- context [delivered (?e :: events) rs] =>
               change (delivered (e :: events) rs) with (delivered events rs)
           end;
           rewrite <- Hfifo, Hq; cbn [app]; by rewrite <- ?app_assoc).
    destruct Hex as (r & Hr & Hq). exists (r :: rs).
    rewrite Hrs, Hr, <- app_assoc. split; [done |].
    split; [cbn; by rewrite Hlen |].
    rewrite delivered_request. cbn [app].
    destruct (delivery (Request method url text, r)) as [command |].
    + rewrite Hq. cbn [app]. by rewrite Hfifo.
    + cbn [app]. by rewrite <- Hfifo, Hq.
Qed.

(** C4. In every run each request has its reply, and the commands handed
    to the polls, first poll first, followed by the commands still queued,
    are the commands of the accepted lines in the order the lines arrived,
    whatever connection each came on. *)
Theorem polls_deliver_in_order_of_submission (events : list event) (st : state) :
  run initial events = Normal st →
  length (replies st) = length (requests events)
  ∧ (delivered events (replies st) ++ commandQueue st)%list
    = submissions initial events.
Proof.
  intros Hrun. destruct (run_fifo _ _ _ Hrun) as (rs & Hrs & Hlen & Hfifo).
  cbn in Hrs, Hfifo. by rewrite Hrs, <- Hfifo.
Qed.

(** ** A connection that closes *)

Lemma erase_log_fields st st' :
  erase_log st = erase_log st' →
  pendingRequests st = pendingRequests st'
  ∧ commandQueue st = commandQueue st'
  ∧ timers st = timers st'
  ∧ nextTimer st = nextTimer st'
  ∧ buffers st = buffers st'
  ∧ sent st = sent st'
  ∧ replies st = replies st'.
Proof. destruct st, st'. unfold erase_log. cbn. intros [=]. by subst. Qed.

(** No handler reads the log: two states that differ in it alone go the
    same way. *)
Lemma process_line_erase_log s line a b :
  erase_log a = erase_log b →
  erase_log (process_line s line a) = erase_log (process_line s line b).
Proof.
  intros Hsame. same_but_log a b Hsame. unfold process_line.
  destruct (JSON_parse line) as [command | message]; [| done].
  destruct (command_requestId command) as [requestId | message]; [| done].
  by destruct (requestId_text_error requestId).
Qed.

Lemma loop_erase_log s lines : ∀ a b,
  erase_log a = erase_log b →
  erase_log (foldl (loop_body s) a lines) = erase_log (foldl (loop_body s) b lines).
Proof.
  induction lines as [| line lines IH]; intros a b Hsame; [done |].
  cbn. apply IH. unfold loop_body.
  destruct (trims_to_empty line); [done | by apply process_line_erase_log].
Qed.

Lemma step_erase_log e a b :
  erase_log a = erase_log b →
  match step a e, step b e with
  | Normal a', Normal b' => erase_log a' = erase_log b'
  | Throw m, Throw m' => m = m'
  | _, _ => False
  end.
Proof.
  intros Hsame.
  destruct e as [s | s chunk | s | s message | method url text | t]; cbn.
  - by same_but_log a b Hsame.
  - same_but_log a b Hsame. unfold on_data. cbn. by apply loop_erase_log.
  - by same_but_log a b Hsame.
  - by same_but_log a b Hsame.
  - same_but_log a b Hsame.
    unfold on_request, poll, post_response, find_pending, http_error. cbn.
    repeat case_decide; try done; repeat case_match; simplify_eq; done.
  - same_but_log a b Hsame. unfold on_timeout. cbn.
    repeat case_match; simplify_eq; done.
Qed.

Lemma run_erase_log events : ∀ a b,
  erase_log a = erase_log b →
  match run a events, run b events with
  | Normal a', Normal b' => erase_log a' = erase_log b'
  | Throw m, Throw m' => m = m'
  | _, _ => False
  end.
Proof.
  induction events as [| e events IH]; intros a b Hsame; cbn; [done |].
  pose proof (step_erase_log e a b Hsame) as Hstep.
  destruct (step a e) as [a' | m], (step b e) as [b' | m']; try done.
  by apply IH.
Qed.

(** C8. The ['end'] of a connection only writes a line in the log: table,
    timers, queue and all the rest are as before.  So is it with the
    ['error'] a failed write comes back as: it is logged and nothing is
    written again.  From there on the daemon goes the way it would have gone
    with the connection open: the same entries, timers, queue, writes and
    replies after any run, or the same uncaught error. *)
Theorem closed_connection_changes_nothing
    (s : sock) (message : string) (st : state) (events : list event) :
  (step st (Ended s) = Normal (on_end s st)
   ∧ pendingRequests (on_end s st) = pendingRequests st
   ∧ timers (on_end s st) = timers st
   ∧ commandQueue (on_end s st) = commandQueue st
   ∧ sent (on_end s st) = sent st
   ∧ logged (on_end s st) = (logged st ++ [ClientDisconnected])%list
   ∧ erase_log (on_end s st) = erase_log st)
  ∧ (step st (Errored s message) = Normal (on_error s message st)
     ∧ pendingRequests (on_error s message st) = pendingRequests st
     ∧ timers (on_error s message st) = timers st
     ∧ commandQueue (on_error s message st) = commandQueue st
     ∧ sent (on_error s message st) = sent st
     ∧ logged (on_error s message st) = (logged st ++ [SocketError message])%list
     ∧ erase_log (on_error s message st) = erase_log st)
  ∧ match run st events, run (on_end s st) events with
    | Normal open, Normal closed =>
        pendingRequests closed = pendingRequests open
        ∧ timers closed = timers open
        ∧ commandQueue closed = commandQueue open
        ∧ sent closed = sent open
        ∧ replies closed = replies open
    | Throw m, Throw m' => m = m'
    | _, _ => False
    end.
Proof.
  split; [done |]. split; [done |].
  pose proof (run_erase_log events st (on_end s st) eq_refl) as Hrun.
  destruct (run st events) as [open | m], (run (on_end s st) events) as [closed | m'];
    try done.
  apply erase_log_fields in Hrun.
  by destruct Hrun as (-> & -> & -> & _ & _ & -> & ->).
Qed.

(** * More of the daemon *)

(** ** Framing of the lines *)

Lemma split_newline_not_nil s : split_newline s ≠ [].
Proof.
  destruct s as [| c rest]; cbn; [done |].
  case_decide; [done |]. by destruct (split_newline rest).
Qed.

Lemma append_cons (c : ascii) (a b : string) : String c a ++ b = String c (a ++ b).
Proof. reflexivity. Qed.

Lemma append_assoc (a b c : string) : (a ++ b) ++ c = a ++ (b ++ c).
Proof.
  induction a as [| x a IH]; [done |]. by rewrite !append_cons, IH.
Qed.

(** Splitting a text that arrives in two parts: the lines closed by the first
    part, then the split of what the first part left open with the second
    behind it. *)
Lemma split_newline_app x y :
  split_newline (x ++ y) =
  (removelast (split_newline x)
   ++ split_newline (List.last (split_newline x) EmptyString ++ y))%list.
Proof.
  induction x as [| c x IH]; [done |].
  rewrite append_cons. cbn [split_newline].
  pose proof (split_newline_not_nil x) as Hne.
  case_decide as Hc.
  - rewrite IH. by destruct (split_newline x) as [| p ps].
  - rewrite IH. destruct (split_newline x) as [| p [| p' ps]]; [done | |].
    + cbn [removelast List.last app]. rewrite append_cons. cbn [split_newline].
      by rewrite decide_False.
    + done.
Qed.

Lemma append_nil_l (a : string) : EmptyString ++ a = a.
Proof. reflexivity. Qed.

(** The lines and the rest, put back together, are the text. *)
Lemma unlines_split s :
  unlines (removelast (split_newline s)) ++ List.last (split_newline s) EmptyString = s.
Proof.
  induction s as [| c s IH]; [done |].
  cbn [split_newline]. pose proof (split_newline_not_nil s) as Hne.
  case_decide as Hc.
  - subst c. destruct (split_newline s) as [| p ps] eqn:E; [done |].
    cbn [removelast List.last unlines]. cbn [removelast List.last] in IH.
    by rewrite append_nil_l, append_cons, IH.
  - destruct (split_newline s) as [| p [| p' ps]] eqn:E; [done | |].
    + cbn [removelast List.last unlines] in *.
      rewrite append_nil_l in *. by rewrite IH.
    + cbn [removelast List.last unlines] in *.
      by rewrite !append_cons, IH.
Qed.

Lemma split_newline_no_newline s :
  Forall (λ piece, has_newline piece = false) (split_newline s).
Proof.
  induction s as [| c s IH]; cbn [split_newline]; [by repeat constructor |].
  case_decide as Hc; [by constructor |].
  destruct (split_newline s) as [| p ps].
  - constructor; [| done]. cbn. by rewrite decide_False.
  - apply Forall_cons in IH as [Hp Hps]. constructor; [| done].
    cbn. by rewrite decide_False.
Qed.

Lemma Forall_removelast {A} (P : A → Prop) (l : list A) :
  Forall P l → Forall P (removelast l).
Proof.
  induction 1 as [| x l Hx Hl IH]; [done |]. cbn.
  destruct l; [done | by constructor].
Qed.

Lemma Forall_last {A} (P : A → Prop) (l : list A) (d : A) :
  l ≠ [] → Forall P l → P (List.last l d).
Proof.
  induction l as [| x l IH]; [done |]. intros _ [Hx Hl]%Forall_cons.
  destruct l as [| y l]; [done |]. by apply IH.
Qed.

(** The loop neither reads nor writes a [buffer]. *)
Lemma process_line_with_buffers m s line st :
  process_line s line (with_buffers m st) = with_buffers m (process_line s line st).
Proof.
  unfold process_line.
  destruct (JSON_parse line) as [command | message]; [| done].
  destruct (command_requestId command) as [requestId | message]; [| done].
  by destruct (requestId_text_error requestId).
Qed.

Lemma loop_with_buffers m s lines : ∀ st,
  foldl (loop_body s) (with_buffers m st) lines =
  with_buffers m (foldl (loop_body s) st lines).
Proof.
  induction lines as [| line lines IH]; intros st; [done |].
  cbn. rewrite <- IH. f_equal. unfold loop_body.
  destruct (trims_to_empty line); [done | apply process_line_with_buffers].
Qed.

Lemma on_data_buffers s chunk st :
  buffers (on_data s chunk st) =
  <[s := List.last (split_newline (default EmptyString (buffers st !! s) ++ chunk))
           EmptyString]> (buffers st).
Proof. unfold on_data. by rewrite loop_with_buffers. Qed.

(** X1. The ['data'] handler loses no character and invents none: the lines
    it hands to the loop, a newline after each, followed by the [buffer] it
    keeps, are the old [buffer] followed by the chunk.  Neither a line nor
    the [buffer] kept holds a newline, and the [buffer] of every other
    connection is as before. *)
Theorem framing_loses_nothing (s : sock) (chunk : string) (st : state) :
  let kept := default EmptyString (buffers (on_data s chunk st) !! s) in
  unlines (lines_of s chunk st) ++ kept
    = default EmptyString (buffers st !! s) ++ chunk
  ∧ has_newline kept = false
  ∧ Forall (λ line, has_newline line = false) (lines_of s chunk st)
  ∧ ∀ s', s' ≠ s → buffers (on_data s chunk st) !! s' = buffers st !! s'.
Proof.
  cbn. rewrite on_data_buffers, lookup_insert_eq. cbn. unfold lines_of.
  pose proof (split_newline_no_newline
                (default EmptyString (buffers st !! s) ++ chunk)) as Hall.
  split; [apply unlines_split |]. split; [| split].
  - by apply Forall_last; [apply split_newline_not_nil |].
  - by apply Forall_removelast.
  - intros s' Hne. by rewrite lookup_insert_ne.
Qed.

Lemma removelast_app_r {A} (l l' : list A) :
  l' ≠ [] → removelast (l ++ l') = (l ++ removelast l')%list.
Proof.
  intros Hne. induction l as [| x l IH]; [done |].
  cbn. rewrite IH. by destruct (l ++ l')%list eqn:E; [destruct l, l' |].
Qed.

Lemma last_app_r {A} (l l' : list A) (d : A) :
  l' ≠ [] → List.last (l ++ l') d = List.last l' d.
Proof.
  intros Hne. induction l as [| x l IH]; [done |].
  cbn. rewrite IH. by destruct (l ++ l')%list eqn:E; [destruct l, l' |].
Qed.

(** Text that arrives in two parts is handled as the whole would be. *)
Lemma on_data_app (s : sock) (a b : string) (st : state) :
  on_data s b (on_data s a st) = on_data s (a ++ b) st.
Proof.
  unfold on_data at 1. rewrite on_data_buffers, lookup_insert_eq. cbn [default].
  unfold on_data. rewrite !loop_with_buffers.
  set (old := default EmptyString (buffers st !! s)).
  rewrite <- (append_assoc old a b), (split_newline_app (old ++ a) b).
  set (first := split_newline (old ++ a)).
  set (second := split_newline (List.last first EmptyString ++ b)).
  assert (second ≠ []) as Hne by apply split_newline_not_nil.
  rewrite (removelast_app_r _ second Hne), (last_app_r _ second _ Hne), foldl_app.
  unfold with_buffers. cbn. by rewrite insert_insert_eq.
Qed.

(** X2. Each [Buffer] is turned into text on its own (line 114), and the
    cut between two of them matters through that alone: when the text of
    the bytes of both is the text of the first followed by the text of the
    second, as it is when the cut falls between two characters, the two
    arriving one after the other leave the daemon in the state in which
    the two in one [Buffer] would. *)
Theorem cut_between_characters_does_not_matter
    (s : sock) (a b : string) (st : state) :
  Buffer_toString (a ++ b) = Buffer_toString a ++ Buffer_toString b →
  run st [Data s a; Data s b] = run st [Data s (a ++ b)].
Proof. intros Hcut. cbn. by rewrite Hcut, on_data_app. Qed.

(** What one line adds to the writes and to the queue. *)
Lemma loop_body_answers_or_queues s line st :
  sent (loop_body s st line) =
    (sent st ++ (failure_to s <$> option_list (refused line)))%list
  ∧ commandQueue (loop_body s st line) =
      (commandQueue st ++ option_list (accepted line))%list.
Proof.
  unfold loop_body, refused, accepted.
  destruct (trims_to_empty line); [by rewrite !app_nil_r |].
  unfold process_line.
  destruct (JSON_parse line) as [command | message];
    [destruct (command_requestId command) as [requestId | message];
       [destruct (requestId_text_error requestId) as [message |] |] |];
    cbn; by rewrite ?app_nil_r.
Qed.

Lemma omap_cons_option_list {A B} (f : A → option B) (x : A) (l : list A) :
  omap f (x :: l) = (option_list (f x) ++ omap f l)%list.
Proof. cbn. by destruct (f x). Qed.

(** What the loop writes and queues, line by line. *)
Lemma loop_answers_or_queues s lines : ∀ st,
  sent (foldl (loop_body s) st lines) =
    (sent st ++ (failure_to s <$> omap refused lines))%list
  ∧ commandQueue (foldl (loop_body s) st lines) =
      (commandQueue st ++ omap accepted lines)%list.
Proof.
  induction lines as [| line lines IH]; intros st.
  - cbn. by rewrite !app_nil_r.
  - cbn [foldl]. destruct (IH (loop_body s st line)) as [-> ->].
    destruct (loop_body_answers_or_queues s line st) as [-> ->].
    by rewrite !omap_cons_option_list, fmap_app, <- !app_assoc.
Qed.

(** X3. What the loop makes of the lines of a chunk.  The writes it adds are
    the failures of the lines it refuses, in their order and on the
    connection of the chunk; the commands it adds to the queue are those of
    the lines it accepts; no HTTP reply is made.  A blank line is neither
    refused nor accepted; any other line is one or the other, never neither;
    and it is both, queued and answered with a failure, exactly when it
    parses to a command whose [requestId] can be read and which line 137
    fails to turn into text. *)
Theorem every_line_is_answered_or_queued (s : sock) (chunk : string) (st : state) :
  let st' := on_data s chunk st in
  let lines := lines_of s chunk st in
  sent st' = (sent st ++ (failure_to s <$> omap refused lines))%list
  ∧ commandQueue st' = (commandQueue st ++ omap accepted lines)%list
  ∧ replies st' = replies st
  ∧ ∀ line,
      if trims_to_empty line then refused line = None ∧ accepted line = None
      else (is_Some (refused line) ∨ is_Some (accepted line))
           ∧ (is_Some (refused line) ∧ is_Some (accepted line) ↔
              ∃ command requestId message,
                JSON_parse line = Normal command
                ∧ command_requestId command = Normal requestId
                ∧ requestId_text_error requestId = Some message).
Proof.
  cbn. unfold on_data, lines_of.
  set (lines := removelast _). set (st0 := with_buffers _ st).
  destruct (loop_answers_or_queues s lines st0) as [Hsent Hqueue].
  split; [exact Hsent |]. split; [exact Hqueue |].
  split; [apply (loop_queue s lines st0) |].
  intros line. unfold refused, accepted.
  destruct (trims_to_empty line); [done |].
  destruct (JSON_parse line) as [command | message] eqn:Hparse.
  - destruct (command_requestId command) as [requestId | message] eqn:Hid.
    + split; [by right |]. split.
      * intros [[message Hm] _]. by exists command, requestId, message.
      * intros (c & r & m & [= <-] & Hr & Hm).
        assert (r = requestId) as -> by congruence.
        rewrite Hm. by split.
    + split; [by left |]. split.
      * by intros [_ [? ?]].
      * intros (c & r & m & [= <-] & Hr & _). congruence.
  - split; [by left |]. split.
    + by intros [_ [? ?]].
    + by intros (c & r & m & ? & _).
Qed.

(** ** The HTTP side *)

(** What a request can change. *)
Lemma on_request_takes_away method url text st :
  let st' := on_request method url text st in
  (∃ r, replies st' = (replies st ++ [r])%list ∧ status r ∈ [200; 204; 404; 500])
  ∧ nextTimer st' = nextTimer st
  ∧ buffers st' = buffers st
  ∧ (commandQueue st' = commandQueue st
     ∨ ∃ command, commandQueue st = command :: commandQueue st')
  ∧ ((pendingRequests st' = pendingRequests st ∧ timers st' = timers st
      ∧ sent st' = sent st)
     ∨ ∃ k p response requestId,
         response_key requestId = Some k
         ∧ pendingRequests st !! k = Some p
         ∧ pendingRequests st' = delete k (pendingRequests st)
         ∧ timers st' = delete (timeout p) (timers st)
         ∧ sent st' = (sent st ++
             [{| to := socket p; payload := response;
                 issued := ByResponse (timeout p) |}])%list).
Proof.
  cbn. unfold on_request. repeat case_decide.
  - unfold poll. destruct (commandQueue st) as [| command rest] eqn:Hq; cbn.
    + split; [eexists; split; [done | in_list] |].
      repeat split; try done; by left.
    + split; [eexists; split; [done | in_list] |].
      repeat split; try done; [right; by exists command | by left].
  - unfold post_response, http_error.
    destruct (JSON_parse text) as [response | message]; cbn.
    2: { split; [eexists; split; [done | in_list] |].
         repeat split; try done; by left. }
    destruct (destructure_requestId response) as [requestId | message]; cbn.
    2: { split; [eexists; split; [done | in_list] |].
         repeat split; try done; by left. }
    unfold find_pending. cbn.
    destruct (response_key requestId) as [k |] eqn:Hkey; cbn.
    2: { split; [eexists; split; [done | in_list] |].
         repeat split; try done; by left. }
    destruct (pendingRequests st !! k) as [p |] eqn:Hk; cbn.
    2: { split; [eexists; split; [done | in_list] |].
         repeat split; try done; by left. }
    split; [eexists; split; [done | in_list] |].
    repeat split; try done; [by left |].
    right. by exists k, p, response, requestId.
  - cbn. split; [eexists; split; [done | in_list] |].
    repeat split; try done; by left.
  - cbn. split; [eexists; split; [done | in_list] |].
    repeat split; try done; by left.
Qed.

(** X4. Whatever the method, the address and the body, a request gets one
    reply, with status 200, 204, 404 or 500, and the handler only takes
    away: it arms no timer, touches no [buffer], leaves the queue as it is
    or without its head, and leaves the table and the timers as they are or
    with one entry and its timer less. *)
Theorem request_only_takes_away (method url text : string) (st : state) :
  let st' := on_request method url text st in
  (∃ r, replies st' = (replies st ++ [r])%list ∧ status r ∈ [200; 204; 404; 500])
  ∧ nextTimer st' = nextTimer st
  ∧ buffers st' = buffers st
  ∧ (commandQueue st' = commandQueue st
     ∨ ∃ command, commandQueue st = command :: commandQueue st')
  ∧ ((pendingRequests st' = pendingRequests st ∧ timers st' = timers st
      ∧ sent st' = sent st)
     ∨ ∃ k p, pendingRequests st !! k = Some p
              ∧ pendingRequests st' = delete k (pendingRequests st)
              ∧ timers st' = delete (timeout p) (timers st)
              ∧ ∃ w, sent st' = (sent st ++ [w])%list ∧ to w = socket p).
Proof.
  destruct (on_request_takes_away method url text st)
    as (Hr & Hn & Hb & Hq & [Hsame | (k & p & response & requestId & _ & Hk & Hp & Ht & Hs)]).
  - repeat split; try done. by left.
  - repeat split; try done. right. exists k, p. repeat split; try done.
    eexists. by split.
Qed.

(** X5. A [POST /response] whose body [JSON.parse] refuses, or whose body is
    [null], is answered 500 with the message of the error; table, queue,
    timers and writes are as before. *)
Theorem bad_completion_is_answered_500 (text message : string) (st : state) :
  JSON_parse text = Throw message
  ∨ (JSON_parse text = Normal JNull ∧ message = null_destructure_message) →
  let st' := on_request "POST" "/response" text st in
  replies st' = (replies st ++
      [{| status := 500; content_type := None; content := Text message |}])%list
  ∧ pendingRequests st' = pendingRequests st
  ∧ commandQueue st' = commandQueue st
  ∧ timers st' = timers st
  ∧ sent st' = sent st.
Proof.
  intros Hbad. cbn. rewrite on_request_response. unfold post_response.
  destruct Hbad as [-> | [-> ->]]; done.
Qed.

(** ** What ends the process *)

(** X6. The one event that ends the process with an uncaught error is the
    expiry of an armed timer whose command is [null]; every other event is
    handled. *)
Theorem only_a_null_command_ends_the_process (st : state) (e : event) (message : string) :
  step st e = Throw message ↔
  ∃ t c, e = Expired t ∧ timers st !! t = Some c ∧ timer_command c = JNull
         ∧ message = null_property_message.
Proof.
  split.
  - destruct e as [s | s chunk | s | s m | method url text | t]; cbn; try done.
    unfold on_timeout. destruct (timers st !! t) as [c |] eqn:Ht; [| done].
    destruct (timer_command c) as [| | | | |] eqn:Hc; cbn;
      try (by destruct (pendingRequests _ !! _)).
    intros [= <-]. by exists t, c.
  - intros (t & c & -> & Ht & Hc & ->). by apply (null_timer_ends_the_process t c).
Qed.

(** Lines only add timers. *)
Lemma process_line_keeps_timers s line st t c :
  consistent st → timers st !! t = Some c →
  timers (process_line s line st) !! t = Some c.
Proof.
  intros I Ht. pose proof (timers_below st I t c Ht) as Hlt.
  unfold process_line.
  destruct (JSON_parse line) as [command | message]; [| done].
  destruct (command_requestId command) as [requestId | message];
    [destruct (requestId_text_error requestId) as [message |] |]; cbn;
    (rewrite lookup_insert_ne; [done | lia]).
Qed.

Lemma loop_keeps_timers s lines : ∀ st t c,
  consistent st → timers st !! t = Some c →
  timers (foldl (loop_body s) st lines) !! t = Some c.
Proof.
  induction lines as [| line lines IH]; intros st t c I Ht; [done |].
  cbn. unfold loop_body at 2. destruct (trims_to_empty line); [by apply IH |].
  apply IH; [by apply consistent_process_line | by apply process_line_keeps_timers].
Qed.

(** A timer whose command is [null] is cleared by nothing. *)
Lemma null_timer_stays_armed st e st' t c :
  step st e = Normal st' → consistent st →
  timers st !! t = Some c → timer_command c = JNull →
  timers st' !! t = Some c.
Proof.
  intros Hstep I Ht Hc.
  destruct e as [s | s chunk | s | s m | method url text | t']; cbn in Hstep;
    try (by injection Hstep as <-).
  - injection Hstep as <-. by apply loop_keeps_timers; [apply consistent_with_buffers |].
  - injection Hstep as <-.
    destruct (on_request_takes_away method url text st)
      as (_ & _ & _ & _ & [(_ & -> & _) | (k & p & _ & _ & _ & Hk & _ & -> & _)]);
      [done |].
    rewrite lookup_delete_ne; [done |]. intros Heq.
    destruct (pending_armed st I k p Hk) as (c' & rid & Ht' & Hrid & _).
    rewrite Heq, Ht in Ht'. injection Ht' as <-.
    unfold command_requestId in Hrid. by rewrite Hc in Hrid.
  - unfold on_timeout in Hstep.
    destruct (decide (t' = t)) as [-> | Hne].
    + rewrite Ht, Hc in Hstep. done.
    + destruct (timers st !! t') as [c' |]; [| by injection Hstep as <-].
      destruct (command_requestId (timer_command c')) as [rid | m]; [| done].
      cbn in Hstep. destruct (pendingRequests st !! key_of t' rid);
        injection Hstep as <-; cbn; by rewrite lookup_delete_ne.
Qed.

(** X7. A line that parses to [null] is answered with a failure, and from
    then on the process is bound to end: however the run goes on, as long as
    it has not ended the timer armed for that line is still armed, and its
    expiry is an uncaught error. *)
Theorem null_line_dooms_the_process
    (s : sock) (line : string) (st : state) (events : list event) (later : state) :
  reachable st →
  JSON_parse line = Normal JNull →
  run (process_line s line st) events = Normal later →
  sent (process_line s line st) = (sent st ++
      [{| to := s; payload := failure null_property_message; issued := ByCatch |}])%list
  ∧ timers later !! nextTimer st =
      Some {| timer_socket := s; timer_command := JNull; delay := 30000 |}
  ∧ step later (Expired (nextTimer st)) = Throw null_property_message.
Proof.
  intros Hreach Hparse Hrun.
  destruct (null_line_arms_a_timer s line st Hparse) as (Harmed & Hsent & _).
  split; [exact Hsent |].
  assert (consistent (process_line s line st)) as I
    by (by apply consistent_process_line, reachable_consistent).
  assert (timers later !! nextTimer st =
            Some {| timer_socket := s; timer_command := JNull; delay := 30000 |})
    as Hlater.
  { clear Hsent Hparse Hreach. revert Hrun I Harmed.
    generalize (process_line s line st) as st0.
    induction events as [| e events IH]; intros st0; cbn.
    - by intros [= <-].
    - destruct (step st0 e) as [st1 | m] eqn:Hstep; [| done].
      intros Hrun I Harmed. apply (IH st1 Hrun); [by eapply consistent_step |].
      by eapply null_timer_stays_armed. }
  split; [exact Hlater |].
  by apply (null_timer_ends_the_process _ _ _ Hlater).
Qed.

(** ** Calls filed by identity *)

Lemma response_key_key_of t requestId k :
  response_key requestId = Some k → key_of t requestId = k.
Proof. destruct requestId as [[| | | | |] |]; cbn; congruence. Qed.

Lemma response_key_by_identity requestId :
  response_key requestId = None ↔ by_identity requestId = true.
Proof. destruct requestId as [[| | | | |] |]; cbn; split; congruence. Qed.

Lemma key_of_ref t requestId a : key_of t requestId = KRef a → a = t.
Proof. destruct requestId as [[| | | | |] |]; cbn; congruence. Qed.

Lemma response_key_not_ref requestId a : response_key requestId ≠ Some (KRef a).
Proof. destruct requestId as [[| | | | |] |]; cbn; congruence. Qed.

(** An entry filed by identity outlives every event but the expiry of its
    own timer. *)
Lemma identity_entry_stays st e st' a p :
  step st e = Normal st' → consistent st →
  pendingRequests st !! KRef a = Some p → e ≠ Expired a →
  pendingRequests st' !! KRef a = Some p.
Proof.
  intros Hstep I Ha Hne.
  destruct (pending_armed st I _ p Ha) as (c & rid & Ht & Hrid & Hkey & _).
  apply key_of_ref in Hkey. pose proof (timers_below st I _ c Ht) as Hlt.
  destruct e as [s | s chunk | s | s m | method url text | t']; cbn in Hstep;
    try (by injection Hstep as <-).
  - injection Hstep as <-. unfold on_data.
    generalize (removelast (split_newline
                  (default EmptyString (buffers st !! s) ++ Buffer_toString chunk)))
      as lines.
    assert (consistent (with_buffers
              (<[s := List.last (split_newline
                         (default EmptyString (buffers st !! s)
                          ++ Buffer_toString chunk))
                       EmptyString]> (buffers st)) st)) as I0
      by (by apply consistent_with_buffers).
    assert (pendingRequests (with_buffers
              (<[s := List.last (split_newline
                         (default EmptyString (buffers st !! s)
                          ++ Buffer_toString chunk))
                       EmptyString]> (buffers st)) st) !! KRef a = Some p) as Ha0
      by done.
    revert I0 Ha0.
    generalize (with_buffers
              (<[s := List.last (split_newline
                         (default EmptyString (buffers st !! s)
                          ++ Buffer_toString chunk))
                       EmptyString]> (buffers st)) st) as st0.
    intros st0 I0 Ha0 lines. revert st0 I0 Ha0.
    induction lines as [| line lines IH]; intros st0 I0 Ha0; [done |].
    cbn. apply IH.
    + unfold loop_body. destruct (trims_to_empty line);
        [done | by apply consistent_process_line].
    + unfold loop_body. destruct (trims_to_empty line); [done |].
      destruct (pending_armed st0 I0 _ p Ha0) as (c0 & rid0 & Ht0 & _ & Hkey0 & _).
      apply key_of_ref in Hkey0. pose proof (timers_below st0 I0 _ c0 Ht0) as Hlt0.
      unfold process_line.
      destruct (JSON_parse line) as [command | message]; [| done].
      destruct (command_requestId command) as [requestId | message]; [| done].
      destruct (requestId_text_error requestId) as [message |]; cbn;
        (rewrite lookup_insert_ne; [done |]; intros Heq%key_of_ref; lia).
  - injection Hstep as <-.
    destruct (on_request_takes_away method url text st)
      as (_ & _ & _ & _ & [(-> & _) | (k & q & _ & rid' & Hkey' & _ & -> & _)]);
      [done |].
    rewrite lookup_delete_ne; [done |]. intros ->.
    by apply response_key_not_ref in Hkey'.
  - assert (t' ≠ a) as Hta by congruence.
    unfold on_timeout in Hstep.
    destruct (timers st !! t') as [c' |]; [| by injection Hstep as <-].
    destruct (command_requestId (timer_command c')) as [rid' | m]; [| done].
    cbn in Hstep. destruct (pendingRequests st !! key_of t' rid');
      injection Hstep as <-; cbn; [| done].
    rewrite lookup_delete_ne; [done |]. by intros ->%key_of_ref.
Qed.

(** X8. A command whose [requestId] is an object or an array is filed under
    a key that no response can name, since a Map compares such keys by
    identity: whatever arrives, its entry stays on the table until its own
    timer expires. *)
Theorem identity_keyed_call_ends_by_its_timer_alone
    (s : sock) (line : string) (command : value) (requestId : option value)
    (st : state) (events : list event) (later : state) :
  reachable st →
  JSON_parse line = Normal command →
  command_requestId command = Normal requestId →
  by_identity requestId = true →
  run (process_line s line st) events = Normal later →
  Expired (nextTimer st) ∉ events →
  pendingRequests later !! KRef (nextTimer st)
    = Some {| socket := s; timeout := nextTimer st |}.
Proof.
  intros Hreach Hparse Hid Hby Hrun Hnot.
  assert (consistent (process_line s line st)) as I
    by (by apply consistent_process_line, reachable_consistent).
  assert (pendingRequests (process_line s line st) !! KRef (nextTimer st)
            = Some {| socket := s; timeout := nextTimer st |}) as Hfiled.
  { destruct (process_line_files s _ _ _ st Hparse Hid) as (-> & _).
    replace (key_of (nextTimer st) requestId) with (KRef (nextTimer st))
      by (by destruct requestId as [[| | | | |] |]).
    apply lookup_insert_eq. }
  clear Hparse Hid Hby Hreach. revert Hrun I Hfiled Hnot.
  generalize (process_line s line st) as st0.
  induction events as [| e events IH]; intros st0; cbn.
  - by intros [= <-].
  - destruct (step st0 e) as [st1 | m] eqn:Hstep; [| done].
    intros Hrun I Hfiled Hnot. apply not_elem_of_cons in Hnot as [Hne Hnot].
    apply (IH st1 Hrun); [by eapply consistent_step | | done].
    by eapply identity_entry_stays.
Qed.

(** ** Calls and their timers *)

(** X9. No call is left on the table without a timer: in every state of a
    run, each entry has its own timer armed for 30000 ms, and the expiry of
    that timer takes the entry off and writes the timeout failure to the
    entry's connection.  So the table never has more entries than there are
    armed timers, nor these more than handles handed out. *)
Theorem every_pending_call_has_its_timer (st : state) (k : key) (p : pending) :
  reachable st →
  pendingRequests st !! k = Some p →
  (∃ c requestId st',
     timers st !! timeout p = Some c
     ∧ timer_socket c = socket p
     ∧ delay c = 30000%N
     ∧ step st (Expired (timeout p)) = Normal st'
     ∧ pendingRequests st' = delete k (pendingRequests st)
     ∧ sent st' = (sent st ++
         [{| to := socket p; payload := timeout_result requestId;
             issued := ByTimer (timeout p) |}])%list)
  ∧ (size (pendingRequests st) ≤ size (timers st))%nat
  ∧ (size (timers st) ≤ nextTimer st)%nat.
Proof.
  intros Hreach Hk. pose proof (reachable_consistent _ Hreach) as I.
  split; [| split].
  - destruct (pending_armed st I k p Hk) as (c & rid & Ht & Hrid & Hkey & Hsock).
    exists c, rid. eexists. repeat split.
    + exact Ht.
    + exact Hsock.
    + by eapply timers_delay.
    + cbn. apply (on_timeout_pending _ _ _ p _ Ht Hrid). by rewrite Hkey.
    + cbn. by rewrite Hkey.
    + cbn. by rewrite Hsock.
  - rewrite <- !length_map_to_list.
    rewrite <- (length_fmap (λ kp, timeout kp.2) (map_to_list (pendingRequests st))).
    rewrite <- (length_fmap fst (map_to_list (timers st))).
    apply submseteq_length, NoDup_submseteq.
    + apply NoDup_fmap_2_strong; [| apply NoDup_map_to_list].
      intros [k1 p1] [k2 p2] H1%elem_of_map_to_list H2%elem_of_map_to_list Heq.
      cbn in Heq.
      assert (k1 = k2) as -> by (by eapply consistent_timeout_key).
      congruence.
    + intros t [[k' p'] [-> Hin%elem_of_map_to_list]]%list_elem_of_fmap. cbn.
      destruct (pending_armed st I k' p' Hin) as (c & _ & Ht & _).
      apply list_elem_of_fmap. exists (timeout p', c). split; [done |].
      by apply elem_of_map_to_list.
  - pose proof (timers_below st I) as Hbelow.
    assert (dom (timers st) ⊆ set_seq 0 (nextTimer st)) as Hsub.
    { intros t [c Ht]%elem_of_dom. apply elem_of_set_seq.
      specialize (Hbelow t c Ht). lia. }
    apply subseteq_size in Hsub. rewrite size_dom, size_set_seq in Hsub. done.
Qed.

(** A [requestId] that is no object or array is turned into text without
    a call: line 137 does not throw. *)
Lemma primitive_requestId_converts requestId :
  by_identity requestId = false → requestId_text_error requestId = None.
Proof.
  destruct requestId as [v |]; [| done]. cbn.
  pose proof (ToString_primitive v) as Hv. by destruct v.
Qed.

(** X10. A result that carries the [requestId] of a command just accepted,
    the [requestId] being no object or array, goes to the connection the
    command came on, and the entry and its timer are gone; the command is
    still on the queue, for a completion takes nothing off it. *)
Theorem completion_reaches_the_submitter
    (s : sock) (line text : string) (command response : value)
    (requestId : option value) (st : state) :
  reachable st →
  JSON_parse line = Normal command →
  command_requestId command = Normal requestId →
  by_identity requestId = false →
  JSON_parse text = Normal response →
  destructure_requestId response = Normal requestId →
  let st' := on_request "POST" "/response" text (process_line s line st) in
  sent st' = (sent st ++
      [{| to := s; payload := response; issued := ByResponse (nextTimer st) |}])%list
  ∧ pendingRequests st' = delete (key_of (nextTimer st) requestId) (pendingRequests st)
  ∧ timers st' = timers st
  ∧ commandQueue st' = (commandQueue st ++ [command])%list.
Proof.
  intros Hreach Hparse Hid Hby Htext Hrid.
  pose proof (reachable_consistent _ Hreach) as I.
  destruct (response_key requestId) as [k |] eqn:Hkey;
    [| apply response_key_by_identity in Hkey; congruence].
  pose proof (response_key_key_of (nextTimer st) _ _ Hkey) as Hk.
  cbn. rewrite on_request_response.
  rewrite (post_response_matched text response requestId k
             {| socket := s; timeout := nextTimer st |} _ Htext Hrid Hkey).
  2: { destruct (process_line_files s _ _ _ st Hparse Hid) as (-> & _).
       rewrite Hk. apply lookup_insert_eq. }
  rewrite (process_line_accepted _ _ _ _ _ Hparse Hid),
    (primitive_requestId_converts _ Hby). cbn.
  rewrite Hk. repeat split.
  - by rewrite delete_insert_eq.
  - rewrite delete_insert_eq. apply delete_id.
    destruct (timers st !! nextTimer st) as [c |] eqn:Ht; [| done].
    apply (timers_below st I) in Ht. lia.
Qed.

(** X11. A timeout does not take the command back: when the timer of a
    command expires before any poll, the client is told of the failure and
    the command is still handed to the next poll.  The timeout is the one
    thing written for the command when line 137 could turn its [requestId]
    into text; when it could not, the failure of that line was written
    first. *)
Theorem timed_out_command_is_still_delivered
    (s : sock) (line text : string) (command : value) (requestId : option value)
    (st : state) :
  JSON_parse line = Normal command →
  command_requestId command = Normal requestId →
  commandQueue st = [] →
  ∃ expired,
    step (process_line s line st) (Expired (nextTimer st)) = Normal expired
    ∧ sent expired = (sent st ++
        match requestId_text_error requestId with
        | Some message => [failure_to s message]
        | None => []
        end ++
        [{| to := s; payload := timeout_result requestId;
            issued := ByTimer (nextTimer st) |}])%list
    ∧ replies (on_request "GET" "/poll" text expired) = (replies st ++
        [{| status := 200; content_type := Some "application/json";
            content := Json command |}])%list.
Proof.
  intros Hparse Hid Hq.
  rewrite (process_line_accepted _ _ _ _ _ Hparse Hid).
  destruct (requestId_text_error requestId) as [message |].
  - eexists. split.
    + cbn. unfold on_timeout. cbn. rewrite lookup_insert_eq. cbn.
      rewrite Hid. cbn. rewrite lookup_insert_eq. reflexivity.
    + split; [cbn; by rewrite <- app_assoc |].
      cbn. unfold on_request. rewrite decide_True by done.
      unfold poll. cbn. rewrite Hq. done.
  - eexists. split.
    + cbn. unfold on_timeout. cbn. rewrite lookup_insert_eq. cbn.
      rewrite Hid. cbn. rewrite lookup_insert_eq. reflexivity.
    + split; [done |]. cbn. unfold on_request. rewrite decide_True by done.
      unfold poll. cbn. rewrite Hq. done.
Qed.

(** ** What the extension is handed *)

(** X12. [null] is never queued: in every state of a run each command on the
    queue, and each command a reply to a poll carries, is a value whose
    [requestId] can be read. *)
Theorem queued_commands_are_never_null (events : list event) (st : state) :
  run initial events = Normal st →
  (∀ command, command ∈ commandQueue st →
     ∃ requestId, command_requestId command = Normal requestId)
  ∧ (∀ command, command ∈ delivered events (replies st) →
       ∃ requestId, command_requestId command = Normal requestId).
Proof.
  intros Hrun.
  destruct (run_fifo _ _ _ Hrun) as (rs & Hrs & _ & Hfifo). cbn in Hrs, Hfifo.
  subst rs.
  assert (∀ st0 evs command, command ∈ submissions st0 evs →
            ∃ requestId, command_requestId command = Normal requestId) as Hsub.
  { intros st0 evs. revert st0. induction evs as [| e evs IH]; intros st0 command.
    - by intros ?%not_elem_of_nil.
    - cbn. destruct (step st0 e) as [st1 | m]; [| by intros ?%not_elem_of_nil].
      intros [Hin | Hin]%elem_of_app; [| by eapply IH].
      destruct e; try (by apply not_elem_of_nil in Hin).
      apply list_elem_of_omap in Hin as [line [_ Hacc]].
      unfold accepted in Hacc. destruct (trims_to_empty line); [done |].
      destruct (JSON_parse line) as [c | m]; [| done].
      destruct (command_requestId c) as [rid | m] eqn:Hrid; [| done].
      injection Hacc as <-. by exists rid. }
  split; intros command Hin; apply (Hsub initial events);
    rewrite Hfifo; apply elem_of_app; [by right | by left].
Qed.

End Properties.

(** * The scenarios, on the reference engine *)

Import Reference Scenario.

Lemma run_after events :
  completes events = true → run initial events = Normal (after events).
Proof. unfold completes, after. by destruct (run initial events). Qed.

Lemma reachable_after events : completes events = true → reachable (after events).
Proof. intros Hc. exists events. by apply run_after. Qed.

(** C1, on the line [{"type":"get_tabs","data":{},"requestId":{"toString":1}}].
    The line is accepted: its timer is armed, its entry is set in the table
    and the command is pushed on the queue.  Making the message of line 137
    then throws, for the [requestId] is an object whose own [toString] is no
    function, and the [catch] writes a failure to the client at once, with
    the entry still on the table.  When the timer expires the callback finds
    the entry and writes the timeout failure to the same client: one
    submission accepted, two results written back. *)
Lemma unprintable_requestId_is_answered_twice :
  let requestId := JObj [("toString", JNum (1, 0)%Z)] in
  let command := JObj [("type", JStr "get_tabs"); ("data", JObj []);
                       ("requestId", requestId)] in
  let submitted := [Connected 0; Data 0 (sends unprintable_id)] in
  let events := (submitted ++ [Expired 0])%list in
  JSON_parse (json_text unprintable_id) = Normal command
  ∧ run initial events = Normal (after events)
  ∧ submissions initial events = [command]
  ∧ pendingRequests (after submitted) !! KRef 0 = Some {| socket := 0; timeout := 0 |}
  ∧ timers (after submitted) !! 0 =
      Some {| timer_socket := 0; timer_command := command; delay := 30000 |}
  ∧ commandQueue (after submitted) = [command]
  ∧ sent (after submitted) =
      [{| to := 0;
          payload := JObj [("success", JBool false);
                           ("error", JStr "Cannot convert object to primitive value")];
          issued := ByCatch |}]
  ∧ sent (after events) =
      [{| to := 0;
          payload := JObj [("success", JBool false);
                           ("error", JStr "Cannot convert object to primitive value")];
          issued := ByCatch |};
       {| to := 0;
          payload := JObj [("requestId", requestId); ("success", JBool false);
                           ("error", JStr "Timeout waiting for extension response")];
          issued := ByTimer 0 |}]
  ∧ length (filter (λ w, to w = 0) (sent (after events))) = 2%nat.
Proof.
  intros requestId command submitted events.
  split; [reflexivity |].
  split; [apply run_after; reflexivity |].
  repeat split; reflexivity.
Qed.

(** A command is submitted, polled and completed; its cleared timer then
    has nothing to fire: one result. *)
Lemma completion_and_timeout_exclude_each_other_witness :
  let events := [Data 0 (sends navigate_1); Request "GET" "/poll" EmptyString;
                 Request "POST" "/response" (json_text done_1); Expired 0] in
  run initial events = Normal (after events)
  ∧ (length (results_for 0 (sent (after events))) ≤ 1)%nat
  ∧ length (results_for 0 (sent (after events))) = 1%nat.
Proof.
  intros events.
  assert (run initial events = Normal (after events)) as Hrun
    by (apply run_after; reflexivity).
  split; [exact Hrun |]. split.
  - exact (proj1 (completion_and_timeout_exclude_each_other events (after events) Hrun) 0).
  - reflexivity.
Defined.

(** C2: what the code writes when the timer of request 1 expires is not the
    result the claim spells out; the error text names the extension. *)
Lemma timeout_text_names_the_extension :
  let st := after [Data 0 (sends navigate_1); Expired 0] in
  sent st =
    [{| to := 0;
        payload := JObj [("requestId", JNum (1, 0)%Z); ("success", JBool false);
                         ("error", JStr "Timeout waiting for extension response")];
        issued := ByTimer 0 |}]
  ∧ sent st ≠
    [{| to := 0;
        payload := JObj [("requestId", JNum (1, 0)%Z); ("success", JBool false);
                         ("error", JStr "Timeout waiting for executor response")];
        issued := ByTimer 0 |}].
Proof.
  intros st.
  assert (sent st =
    [{| to := 0;
        payload := JObj [("requestId", JNum (1, 0)%Z); ("success", JBool false);
                         ("error", JStr "Timeout waiting for extension response")];
        issued := ByTimer 0 |}]) as Hsent by reflexivity.
  split; [exact Hsent |]. rewrite Hsent. discriminate.
Qed.

Lemma expired_timer_fails_the_call_witness :
  let st := after [Data 0 (sends navigate_1)] in
  sent st = []
  ∧ ∃ st',
      step st (Expired 0) = Normal st'
      ∧ sent st' = (sent st ++
          [{| to := 0;
              payload := JObj [("requestId", JNum (1, 0)%Z); ("success", JBool false);
                               ("error", JStr "Timeout waiting for extension response")];
              issued := ByTimer 0 |}])%list.
Proof.
  intros st. split; [reflexivity |].
  assert (reachable st) as Hreach
    by (apply reachable_after; reflexivity).
  pose proof (expired_timer_fails_the_call (H:=engine) st 0
                {| timer_socket := 0;
                   timer_command :=
                     JObj [("type", JStr "navigate");
                           ("data", JObj [("url", JStr "https://x")]);
                           ("requestId", JNum (1, 0)%Z)];
                   delay := 30000 |}
                (Some (JNum (1, 0)%Z)) {| socket := 0; timeout := 0 |} Hreach)
    as Hthm.
  destruct Hthm as (st' & Hstep & _ & _ & _ & _ & Hsent);
    [reflexivity | reflexivity | reflexivity |].
  exists st'. split; [exact Hstep | exact Hsent].
Defined.

(** The extension reports request 99, which nobody submitted. *)
Lemma unmatched_response_is_a_no_op_witness :
  let st := after [Data 0 (sends navigate_1)] in
  let st' := on_request "POST" "/response" (json_text done_99) st in
  replies st' = (replies st ++
      [{| status := 200; content_type := None; content := Text "OK" |}])%list
  ∧ pendingRequests st' = pendingRequests st
  ∧ commandQueue st' = commandQueue st
  ∧ timers st' = timers st
  ∧ sent st' = sent st.
Proof.
  intros st st'.
  refine (proj1 (unmatched_response_is_a_no_op (H:=engine) (json_text done_99)
                   (JObj [("requestId", JNum (99, 0)%Z); ("success", JBool true)])
                   (Some (JNum (99, 0)%Z)) st _ _) st _).
  - reflexivity.
  - reflexivity.
  - intros k [= <-]. reflexivity.
Defined.

(** Two clients submit requests 3 and 4 back to back, the second in two
    chunks; the first poll gets 3, the second 4, the third nothing. *)
Lemma polls_deliver_in_order_of_submission_witness :
  let events := [Data 0 (sends click_3); Data 1 "{";
                 Data 1 (String.substring 1 99 (sends get_tabs_4));
                 Request "GET" "/poll" EmptyString; Request "GET" "/poll" EmptyString;
                 Request "GET" "/poll" EmptyString] in
  run initial events = Normal (after events)
  ∧ (length (replies (after events)) = length (requests events)
     ∧ (delivered events (replies (after events)) ++ commandQueue (after events))%list
       = submissions initial events)
  ∧ omap (get_field "requestId")
      (omap (λ v, match v with JObj fields => Some fields | _ => None end)
         (delivered events (replies (after events))))
    = [JNum (3, 0)%Z; JNum (4, 0)%Z]
  ∧ map status (replies (after events)) = [200; 200; 204].
Proof.
  intros events.
  assert (run initial events = Normal (after events)) as Hrun
    by (apply run_after; reflexivity).
  split; [exact Hrun |]. split; [| split].
  - exact (polls_deliver_in_order_of_submission events (after events) Hrun).
  - reflexivity.
  - reflexivity.
Defined.

(** C6: a line of two spaces is no JSON, and the loop passes it over
    without a word to the client. *)
Lemma blank_line_gets_no_failure :
  JSON_parse "  " = Throw "Unexpected token in JSON"
  ∧ sent (loop_body 0 initial "  ") = []
  ∧ sent (on_data 0 (sends "  ") initial) = [].
Proof. repeat split; reflexivity. Qed.

Lemma unparsed_line_is_turned_down_witness :
  let st' := loop_body 0 initial (json_text cut_off) in
  sent st' = (sent initial ++
      [{| to := 0; payload := failure "Unexpected token in JSON";
          issued := ByCatch |}])%list
  ∧ pendingRequests st' = pendingRequests initial
  ∧ commandQueue st' = commandQueue initial
  ∧ timers st' = timers initial
  ∧ nextTimer st' = nextTimer initial.
Proof.
  apply (unparsed_line_is_turned_down 0 (json_text cut_off)
           "Unexpected token in JSON" initial).
  - reflexivity.
  - reflexivity.
Defined.

(** Client 1 submits request 1 while client 0's request 1 is pending. *)
Lemma resubmitted_requestId_replaces_the_entry_witness :
  let st := after [Data 0 (sends navigate_1)] in
  let st' := process_line 1 (json_text get_tabs_1) st in
  pendingRequests st' =
    <[key_of (nextTimer st) (Some (JNum (1, 0)%Z)) :=
        {| socket := 1; timeout := nextTimer st |}]> (pendingRequests st)
  ∧ size (pendingRequests st') = size (pendingRequests st)
  ∧ pendingRequests st !! KNum (1, 0)%Z = Some {| socket := 0; timeout := 0 |}
  ∧ pendingRequests st' !! KNum (1, 0)%Z = Some {| socket := 1; timeout := 1 |}.
Proof.
  intros st st'.
  assert (reachable st) as Hreach
    by (apply reachable_after; reflexivity).
  pose proof (resubmitted_requestId_replaces_the_entry (H:=engine) 1
                (json_text get_tabs_1)
                (JObj [("type", JStr "get_tabs"); ("data", JObj []);
                       ("requestId", JNum (1, 0)%Z)])
                (Some (JNum (1, 0)%Z)) {| socket := 0; timeout := 0 |} st Hreach)
    as Hthm.
  destruct Hthm as (Htable & Hsize & _);
    [reflexivity | reflexivity | reflexivity |].
  split; [exact Htable |]. split; [exact Hsize |].
  split; reflexivity.
Defined.

(** A line cut off half way. *)
Lemma failure_carries_no_requestId_witness :
  let events := [Data 0 (sends cut_off)] in
  let w := {| to := 0; payload := failure "Unexpected token in JSON";
              issued := ByCatch |} in
  run initial events = Normal (after events)
  ∧ sent (after events) = [w]
  ∧ ∃ message,
      payload w = JObj [("success", JBool false); ("error", JStr message)]
      ∧ command_requestId (payload w) = Normal None.
Proof.
  intros events w.
  assert (run initial events = Normal (after events)) as Hrun
    by (apply run_after; reflexivity).
  assert (sent (after events) = [w]) as Hsent by (reflexivity).
  split; [exact Hrun |]. split; [exact Hsent |].
  apply (proj2 failure_carries_no_requestId events (after events) w Hrun).
  - rewrite Hsent. apply list_elem_of_here.
  - reflexivity.
Defined.

(** * More scenarios *)

Lemma run_follow st events :
  goes_through st events = true → run st events = Normal (follow st events).
Proof. unfold goes_through, follow. by destruct (run st events). Qed.

Lemma reachable_initial : reachable initial.
Proof. by exists []. Qed.

(** A whole line and the start of the next arrive on connection 0. *)
Lemma framing_loses_nothing_witness :
  let chunk := sends navigate_1 ++ json_text cut_off in
  let kept := default EmptyString (buffers (on_data 0 chunk initial) !! 0) in
  (unlines (lines_of 0 chunk initial) ++ kept
     = default EmptyString (buffers initial !! 0) ++ chunk
   ∧ has_newline kept = false)
  ∧ kept = json_text cut_off
  ∧ buffers (on_data 0 chunk initial) !! 1 = buffers initial !! 1.
Proof.
  intros chunk kept.
  destruct (framing_loses_nothing (H:=engine) 0 chunk initial) as (Hall & Hnl & _ & Hothers).
  split; [by split |]. split; [reflexivity |].
  apply Hothers. lia.
Defined.

(** A line of ASCII cut in two: the text of the whole is the two texts, and
    the two chunks do what the whole does. *)
Lemma cut_between_characters_does_not_matter_witness :
  let a := json_text cut_off in
  let b := sends the_rest in
  (a ++ b = sends navigate_1
   ∧ Buffer_toString (a ++ b) = Buffer_toString a ++ Buffer_toString b)
  ∧ run initial [Data 0 a; Data 0 b] = run initial [Data 0 (a ++ b)].
Proof.
  intros a b.
  assert (Buffer_toString (a ++ b) = Buffer_toString a ++ Buffer_toString b)
    as Hcut by (vm_compute; reflexivity).
  split; [split; [reflexivity | exact Hcut] |].
  exact (cut_between_characters_does_not_matter (H:=engine) 0 a b initial Hcut).
Defined.

(** The two bytes of one character, U+00E9, arriving in two chunks: each
    byte alone is no character, and the [buffer] kept is not the one the
    two bytes together leave. *)
Lemma cut_inside_a_character_matters :
  let a := String (ascii_of_nat 195) EmptyString in
  let b := String (ascii_of_nat 169) EmptyString in
  a ++ b = e_acute
  ∧ Buffer_toString (a ++ b) = String (ascii_of_nat 233) EmptyString
  ∧ Buffer_toString a ++ Buffer_toString b = "??"
  ∧ buffers (after [Data 0 (a ++ b)]) !! 0 = Some (String (ascii_of_nat 233) EmptyString)
  ∧ buffers (after [Data 0 a; Data 0 b]) !! 0 = Some "??"
  ∧ run initial [Data 0 a; Data 0 b] ≠ run initial [Data 0 (a ++ b)].
Proof.
  intros a b. repeat split; try reflexivity.
  intros Hsame.
  assert (buffers (after [Data 0 a; Data 0 b]) !! 0
          = buffers (after [Data 0 (a ++ b)]) !! 0) as Hb
    by (unfold after; by rewrite Hsame).
  discriminate Hb.
Qed.

(** Three lines in one chunk: one that is cut off, a blank one, and one
    whose [requestId] line 137 cannot turn into text, which is queued and
    answered with a failure. *)
Lemma unprintable_line_is_queued_and_answered :
  let chunk := sends cut_off ++ sends "  " ++ sends unprintable_id in
  let st' := on_data 0 chunk initial in
  omap refused (lines_of 0 chunk initial)
    = ["Unexpected token in JSON"; "Cannot convert object to primitive value"]
  ∧ sent st' = [failure_to 0 "Unexpected token in JSON";
                failure_to 0 "Cannot convert object to primitive value"]
  ∧ commandQueue st' =
      [JObj [("type", JStr "get_tabs"); ("data", JObj []);
             ("requestId", JObj [("toString", JNum (1, 0)%Z)])]].
Proof. repeat split; reflexivity. Qed.

(** The extension posts a body that is cut off. *)
Lemma bad_completion_is_answered_500_witness :
  let st := after [Data 0 (sends navigate_1)] in
  let st' := on_request "POST" "/response" (json_text cut_off) st in
  replies st' = (replies st ++
      [{| status := 500; content_type := None;
          content := Text "Unexpected token in JSON" |}])%list
  ∧ pendingRequests st' = pendingRequests st
  ∧ commandQueue st' = commandQueue st
  ∧ timers st' = timers st
  ∧ sent st' = sent st.
Proof.
  intros st st'.
  apply (bad_completion_is_answered_500 (H:=engine) (json_text cut_off)
           "Unexpected token in JSON" st).
  left. reflexivity.
Defined.

(** The line [null], thirty seconds later. *)
Lemma only_a_null_command_ends_the_process_witness :
  let st := after [Data 0 (sends "null")] in
  step st (Expired 0) = Throw null_property_message
  ∧ ∃ t c, Expired 0 = Expired t ∧ timers st !! t = Some c ∧ timer_command c = JNull
           ∧ null_property_message = null_property_message.
Proof.
  intros st.
  assert (step st (Expired 0) = Throw null_property_message) as Hstep by reflexivity.
  split; [exact Hstep |].
  exact (proj1 (only_a_null_command_ends_the_process (H:=engine) st (Expired 0)
                  null_property_message) Hstep).
Defined.

(** After the line [null], another client is served as usual, and the timer
    of the line is still there. *)
Lemma null_line_dooms_the_process_witness :
  let events := [Data 1 (sends navigate_1); Request "GET" "/poll" EmptyString;
                 Request "POST" "/response" (json_text done_1)] in
  let later := follow (process_line 0 "null" initial) events in
  sent later =
    [{| to := 0; payload := failure null_property_message; issued := ByCatch |};
     {| to := 1;
        payload := JObj [("requestId", JNum (1, 0)%Z); ("success", JBool true);
                         ("data", JObj [("tabId", JNum (7, 0)%Z)])];
        issued := ByResponse 1 |}]
  ∧ timers later !! 0 = Some {| timer_socket := 0; timer_command := JNull; delay := 30000 |}
  ∧ step later (Expired 0) = Throw null_property_message.
Proof.
  intros events later.
  pose proof (null_line_dooms_the_process (H:=engine) 0 "null" initial events later
                reachable_initial) as Hthm.
  destruct Hthm as (_ & Harmed & Hends);
    [reflexivity | apply run_follow; reflexivity |].
  split; [reflexivity |]. split; [exact Harmed | exact Hends].
Defined.

(** A command whose [requestId] is an object; the extension echoes it. *)
Lemma identity_keyed_call_ends_by_its_timer_alone_witness :
  let events := [Request "GET" "/poll" EmptyString;
                 Request "POST" "/response" (json_text done_boxed)] in
  let later := follow (process_line 0 (json_text boxed_id) initial) events in
  pendingRequests later !! KRef 0 = Some {| socket := 0; timeout := 0 |}
  ∧ sent later = [].
Proof.
  intros events later. split; [| reflexivity].
  apply (identity_keyed_call_ends_by_its_timer_alone (H:=engine) 0 (json_text boxed_id)
           (JObj [("type", JStr "get_tabs"); ("data", JObj []);
                  ("requestId", JObj [("n", JNum (1, 0)%Z)])])
           (Some (JObj [("n", JNum (1, 0)%Z)])) initial events later
           reachable_initial).
  - reflexivity.
  - reflexivity.
  - reflexivity.
  - apply run_follow. reflexivity.
  - intros Hin. repeat (apply elem_of_cons in Hin as [Hin | Hin]; [discriminate |]).
    by apply not_elem_of_nil in Hin.
Defined.

Lemma every_pending_call_has_its_timer_witness :
  let st := after [Data 0 (sends navigate_1); Data 1 (sends get_tabs_4)] in
  pendingRequests st !! KNum (4, 0)%Z = Some {| socket := 1; timeout := 1 |}
  ∧ (size (pendingRequests st) ≤ size (timers st))%nat
  ∧ (size (timers st) ≤ nextTimer st)%nat.
Proof.
  intros st.
  assert (pendingRequests st !! KNum (4, 0)%Z = Some {| socket := 1; timeout := 1 |})
    as Hk by reflexivity.
  split; [exact Hk |].
  refine (proj2 (every_pending_call_has_its_timer (H:=engine) st _ _ _ Hk)).
  apply reachable_after. reflexivity.
Defined.

Lemma completion_reaches_the_submitter_witness :
  let st' := on_request "POST" "/response" (json_text done_1)
               (process_line 0 (json_text navigate_1) initial) in
  sent st' = (sent initial ++
      [{| to := 0;
          payload := JObj [("requestId", JNum (1, 0)%Z); ("success", JBool true);
                           ("data", JObj [("tabId", JNum (7, 0)%Z)])];
          issued := ByResponse (nextTimer initial) |}])%list
  ∧ pendingRequests st' =
      delete (key_of (nextTimer initial) (Some (JNum (1, 0)%Z))) (pendingRequests initial)
  ∧ timers st' = timers initial
  ∧ commandQueue st' = (commandQueue initial ++
      [JObj [("type", JStr "navigate"); ("data", JObj [("url", JStr "https://x")]);
             ("requestId", JNum (1, 0)%Z)]])%list.
Proof.
  apply (completion_reaches_the_submitter (H:=engine) 0 (json_text navigate_1)
           (json_text done_1)
           (JObj [("type", JStr "navigate"); ("data", JObj [("url", JStr "https://x")]);
                  ("requestId", JNum (1, 0)%Z)])
           (JObj [("requestId", JNum (1, 0)%Z); ("success", JBool true);
                  ("data", JObj [("tabId", JNum (7, 0)%Z)])])
           (Some (JNum (1, 0)%Z)) initial reachable_initial); reflexivity.
Defined.

(** The timer of a command whose [requestId] line 137 could not turn into
    text: the timeout failure comes after the failure of that line, and the
    command is still handed to the poll. *)
Lemma timed_out_command_is_still_delivered_witness :
  let requestId := JObj [("toString", JNum (1, 0)%Z)] in
  let command := JObj [("type", JStr "get_tabs"); ("data", JObj []);
                       ("requestId", requestId)] in
  ∃ expired,
    step (process_line 0 (json_text unprintable_id) initial) (Expired (nextTimer initial))
      = Normal expired
    ∧ sent expired = (sent initial ++
        [failure_to 0 "Cannot convert object to primitive value"] ++
        [{| to := 0; payload := timeout_result (Some requestId);
            issued := ByTimer (nextTimer initial) |}])%list
    ∧ replies (on_request "GET" "/poll" EmptyString expired) = (replies initial ++
        [{| status := 200; content_type := Some "application/json";
            content := Json command |}])%list.
Proof.
  intros requestId command.
  apply (timed_out_command_is_still_delivered (H:=engine) 0 (json_text unprintable_id)
           EmptyString command (Some requestId) initial); reflexivity.
Defined.

(** The line [null], then a command: the command alone is queued. *)
Lemma queued_commands_are_never_null_witness :
  let events := [Data 0 (sends "null"); Data 0 (sends get_tabs_4)] in
  let command := JObj [("type", JStr "get_tabs"); ("data", JObj []);
                       ("requestId", JNum (4, 0)%Z)] in
  commandQueue (after events) = [command]
  ∧ ∃ requestId, command_requestId command = Normal requestId.
Proof.
  intros events command.
  assert (commandQueue (after events) = [command]) as Hq by reflexivity.
  split; [exact Hq |].
  apply (proj1 (queued_commands_are_never_null (H:=engine) events (after events)
                  (run_after events eq_refl))).
  rewrite Hq. apply list_elem_of_here.
Defined.
